(** * collect_portraits: a shallow embedding of [scripts/collect_portraits.py]

    The script resolves a list of faculty identifiers, lists the blobs stored
    under each identifier's prefix, keeps the image blobs, downloads the
    largest one and writes two JPEG thumbnails.

    Layout of this development:
    - Python strings, [str.strip], [str.splitlines], [sorted(set(...))];
    - [pathlib.PurePosixPath]: parsing, [/], [name], [suffix];
    - the part of Pillow the script calls ([convert], [copy], [thumbnail],
      [save] as JPEG), with binary64 floats where Pillow computes in them;
    - the script's functions, over an explicit world (object store, local
      files) and a state holding the logging level and the trace of effects;
    - the properties. *)

From Stdlib Require Import NArith ZArith List Lia String Ascii Bool.
From Corelib Require Import PrimFloat.
From stdpp Require Import base option list sorting gmap.

Local Open Scope N_scope.

(** ** Python strings

    A [str] is a sequence of Unicode code points. *)

Abbreviation str := (list N).

(** A literal of the script; every literal of the script is ASCII. *)
Definition py (s : string) : str :=
  List.map N_of_ascii (list_ascii_of_string s).

(** [bool(s)] for a string: true when non-empty. *)
Definition truthy {A} (l : list A) : bool :=
  match l with [] => false | _ :: _ => true end.

(** The code points [str.strip()] removes ([Py_UNICODE_ISSPACE]). *)
Definition isspace (c : N) : bool :=
  ((9 <=? c) && (c <=? 13)) || ((28 <=? c) && (c <=? 32))
  || (c =? 133) || (c =? 160) || (c =? 5760)
  || ((8192 <=? c) && (c <=? 8202))
  || (c =? 8232) || (c =? 8233) || (c =? 8239) || (c =? 8287) || (c =? 12288).

(** The line boundaries of [str.splitlines()]. *)
Definition is_linebreak (c : N) : bool :=
  ((10 <=? c) && (c <=? 13)) || ((28 <=? c) && (c <=? 30))
  || (c =? 133) || (c =? 8232) || (c =? 8233).

Fixpoint lstrip_by (p : N -> bool) (s : str) : str :=
  match s with
  | [] => []
  | c :: r => if p c then lstrip_by p r else s
  end.

Definition rstrip_by (p : N -> bool) (s : str) : str :=
  rev (lstrip_by p (rev s)).

(** [s.strip()] *)
Definition strip (s : str) : str := rstrip_by isspace (lstrip_by isspace s).

Definition SLASH : N := 47.
Definition DOT : N := 46.

(** [s.rstrip('/')] and [s.lstrip('/')] *)
Definition rstrip_slash (s : str) : str := rstrip_by (N.eqb SLASH) s.
Definition lstrip_slash (s : str) : str := lstrip_by (N.eqb SLASH) s.

(** [s.endswith('/')] *)
Definition endswith_slash (s : str) : bool :=
  match rev s with
  | c :: _ => c =? SLASH
  | [] => false
  end.

(** [s.splitlines()]: [cur] holds the current line, reversed.  A carriage
    return followed by a line feed is one boundary; a final boundary opens no
    further line. *)
Fixpoint splitlines_from (cur : str) (s : str) : list str :=
  match s with
  | [] => if truthy cur then [rev cur] else []
  | c :: r =>
      if is_linebreak c then
        rev cur ::
          match r with
          | c' :: r' =>
              if (c =? 13) && (c' =? 10) then splitlines_from [] r'
              else splitlines_from [] r
          | [] => []
          end
      else splitlines_from (c :: cur) r
  end.

Definition splitlines (s : str) : list str := splitlines_from [] s.

(** [s.split(sep)] for a one-character separator. *)
Fixpoint split_on (sep : N) (s : str) : list str :=
  match s with
  | [] => [[]]
  | c :: r =>
      if c =? sep then [] :: split_on sep r
      else match split_on sep r with
           | p :: ps => (c :: p) :: ps
           | [] => [[c]]
           end
  end.

(** [s.rfind(c)], with [None] for Python's -1. *)
Fixpoint rfind (c : N) (s : str) : option nat :=
  match s with
  | [] => None
  | x :: r =>
      match rfind c r with
      | Some i => Some (S i)
      | None => if x =? c then Some 0%nat else None
      end
  end.

(** [s.lower()].  The ASCII letters are mapped; the case mappings of code
    points above 127 are left out: none of them yields a string of ASCII
    letters of the allow-list below, so membership in it is not affected. *)
Definition lower_cp (c : N) : N :=
  if (65 <=? c) && (c <=? 90) then c + 32 else c.
Definition lower (s : str) : str := List.map lower_cp s.

(** Comparison of strings, [a <= b]: lexicographic on code points. *)
Fixpoint str_leb (a b : str) : bool :=
  match a, b with
  | [], _ => true
  | _ :: _, [] => false
  | x :: a', y :: b' =>
      if x <? y then true else if x =? y then str_leb a' b' else false
  end.

Definition str_le (a b : str) : Prop := str_leb a b = true.
Definition str_lt (a b : str) : Prop := str_le a b /\ a <> b.

#[global] Instance str_le_dec : RelDecision str_le.
Proof. intros a b. unfold str_le. apply _. Defined.

(** [sorted(set(l))]: the set is a [gset]; [sorted] is a stable merge sort
    of the set's elements under [<=]. *)
Definition py_set (l : list str) : gset str := list_to_set l.
Definition sorted (s : gset str) : list str := merge_sort str_le (elements s).

(** ** pathlib

    [pathlib.Path] on a POSIX system: a root (empty, one slash or two) and the
    components after it.  Empty components and single dots are dropped when a
    string is parsed. *)

Module Path.

Record t := { root : str; parts : list str }.

(** [_PosixFlavour.splitroot] *)
Definition splitroot (part : str) : str * str :=
  match part with
  | c :: _ =>
      if c =? SLASH then
        let stripped := lstrip_slash part in
        if (length part - length stripped =? 2)%nat
        then ([SLASH; SLASH], stripped)
        else ([SLASH], stripped)
      else ([], part)
  | [] => ([], part)
  end.

Definition keep_component (x : str) : bool :=
  truthy x && negb (bool_decide (x = [DOT])).

(** [Path(s)] *)
Definition of_str (s : str) : t :=
  let '(r, rel) := splitroot s in
  {| root := r; parts := List.filter keep_component (split_on SLASH rel) |}.

(** [p / s]: an absolute right operand replaces the left one. *)
Definition truediv (p : t) (s : str) : t :=
  let q := of_str s in
  if truthy (root q) then q
  else {| root := root p; parts := parts p ++ parts q |}.

(** [p.name]: the final component, if any. *)
Definition name (p : t) : str := List.last (parts p) [].

(** [p.suffix]: the final component's last suffix, with its period. *)
Definition suffix (p : t) : str :=
  let name := name p in
  match rfind DOT name with
  | Some i =>
      if (0 <? i)%nat && (i <? length name - 1)%nat then drop i name else []
  | None => []
  end.

(** [p.parent] *)
Definition parent (p : t) : t :=
  {| root := root p; parts := removelast (parts p) |}.

End Path.

(** ** Pillow

  An image is its mode and its size; pixel values play no part in what the
  script decides.  [Image.open] reads the header only: [pending] is the
  error, if any, that decoding the pixel data will raise at the first
  [load]. *)

Inductive exn :=
| SystemExit (code : str)
| OSError (msg : str)
| ValueError (msg : str)
| ZeroDivisionError
| ExternalError (what : str).

Inductive outcome (A : Type) :=
| Ok (a : A)
| Raise (e : exn).
Arguments Ok {A} a.
Arguments Raise {A} e.

Module Image.

(** The modes an opened image can have; [M1] is "1" and [I16] is "I;16".
    The premultiplied mode "La", which no decoder yields and which has no
    conversion to RGB, is left out. *)
Inductive color_mode :=
| M1 | L | P | RGB | RGBA | CMYK | YCbCr | LAB | HSV | I | F
| LA | PA | RGBX | RGBa | I16.

Definition mode_name (m : color_mode) : str :=
  py match m with
     | M1 => "1" | L => "L" | P => "P" | RGB => "RGB" | RGBA => "RGBA"
     | CMYK => "CMYK" | YCbCr => "YCbCr" | LAB => "LAB" | HSV => "HSV"
     | I => "I" | F => "F" | LA => "LA" | PA => "PA" | RGBX => "RGBX"
     | RGBa => "RGBa" | I16 => "I;16"
     end.

Record t := {
  mode : color_mode;
  width : N;
  height : N;
  pending : option exn
}.

Definition mode_eqb (a b : color_mode) : bool :=
  match a, b with
  | M1, M1 | L, L | P, P | RGB, RGB | RGBA, RGBA | CMYK, CMYK
  | YCbCr, YCbCr | LAB, LAB | HSV, HSV | I, I | F, F | LA, LA | PA, PA
  | RGBX, RGBX | RGBa, RGBa | I16, I16 => true
  | _, _ => false
  end.

(** [im.load()] *)
Definition load (im : t) : outcome t :=
  match pending im with
  | Some e => Raise e
  | None => Ok im
  end.

(** [im.convert("RGB")]: loads, then changes the mode. *)
Definition convert_RGB (im : t) : outcome t :=
  match load im with
  | Ok im => Ok {| mode := RGB; width := width im; height := height im;
                   pending := None |}
  | Raise e => Raise e
  end.

(** [im.copy()]: loads, then copies. *)
Definition copy (im : t) : outcome t := load im.

Definition absdiff (a b : N) : N := if a <=? b then b - a else a - b.

(** An integer as a binary64 float; exact below 2^53, as are Python's
    conversions. *)
Fixpoint float_of_pos (p : positive) : float :=
  match p with
  | xH => 1%float
  | xO q => (2 * float_of_pos q)%float
  | xI q => (2 * float_of_pos q + 1)%float
  end.

Definition float_of_N (n : N) : float :=
  match n with
  | N0 => 0%float
  | Npos p => float_of_pos p
  end.

(** [round_aspect(number, key)] of [Image.thumbnail], for the new width:
    [number = y * aspect] with [aspect = w / h], and
    [key n = abs(aspect - n / y)], computed in floats as Pillow does.
    [min(floor, ceil, key=key)] keeps the floor unless the key of the
    ceiling is strictly smaller.  Floor and ceiling themselves are taken of
    the exact quotient: the float [number] is off by far less than the
    quotient is from the next integer. *)
Definition round_aspect_x (w h y : N) : N :=
  let flo := (y * w) / h in
  let cei := if (y * w) mod h =? 0 then flo else flo + 1 in
  let aspect := (float_of_N w / float_of_N h)%float in
  let key n := PrimFloat.abs (aspect - float_of_N n / float_of_N y)%float in
  N.max (if PrimFloat.ltb (key cei) (key flo) then cei else flo) 1.

(** The same for the new height: [number = x / aspect] and
    [key n = 0 if n == 0 else abs(aspect - x / n)]. *)
Definition round_aspect_y (w h x : N) : N :=
  let flo := (x * h) / w in
  let cei := if (x * h) mod w =? 0 then flo else flo + 1 in
  let aspect := (float_of_N w / float_of_N h)%float in
  let key n :=
    if n =? 0 then 0%float
    else PrimFloat.abs (aspect - float_of_N x / float_of_N n)%float in
  N.max (if PrimFloat.ltb (key cei) (key flo) then cei else flo) 1.

(** [preserve_aspect_ratio()] of [Image.thumbnail]: [None] when the image
    already fits the box. *)
Definition preserve_aspect_ratio (box : N * N) (w h : N)
  : outcome (option (N * N)) :=
  let '(x, y) := box in
  if (w <=? x) && (h <=? y) then Ok None
  else if h =? 0 then Raise ZeroDivisionError
  else if w * y <=? x * h   (* x / y >= w / h *)
       then Ok (Some (round_aspect_x w h y, y))
       else Ok (Some (x, round_aspect_y w h x)).

(** [im.thumbnail(size, Image.LANCZOS)], on a loaded image. *)
Definition thumbnail (box : N * N) (im : t) : outcome t :=
  match preserve_aspect_ratio box (width im) (height im) with
  | Raise e => Raise e
  | Ok None => Ok im
  | Ok (Some (x, y)) =>
      Ok {| mode := mode im; width := x; height := y;
            pending := pending im |}
  end.

(** The modes the JPEG writer accepts ([JpegImagePlugin.RAWMODE]). *)
Definition jpeg_rawmode (m : color_mode) : bool :=
  match m with
  | M1 | L | RGB | RGBX | CMYK | YCbCr => true
  | _ => false
  end.

(** What [im.save(path, format="JPEG", ...)] checks before it encodes: the
    mode first, then that the image is not empty. *)
Definition check_save_jpeg (im : t) : outcome unit :=
  if negb (jpeg_rawmode (mode im))
  then Raise (OSError (py "cannot write mode " ++ mode_name (mode im)
                       ++ py " as JPEG"))
  else if (width im =? 0) || (height im =? 0)
  then Raise (ValueError (py "cannot write empty image as JPEG"))
  else Ok tt.

End Image.

(** ** The script's data *)

Definition IMAGE_EXTENSIONS : gset str :=
  list_to_set [py ".jpg"; py ".jpeg"; py ".png"; py ".webp"; py ".gif"].

Module ThumbnailSpec.

Record t := { name : str; size : N * N; suffix : str }.

Definition destination (self : t) (base_path : Path.t) : Path.t :=
  Path.truediv base_path (name self ++ suffix self).

End ThumbnailSpec.

Definition THUMBNAILS : list ThumbnailSpec.t :=
  [ {| ThumbnailSpec.name := py "cover"; ThumbnailSpec.size := (512, 512);
       ThumbnailSpec.suffix := py ".jpg" |};
    {| ThumbnailSpec.name := py "profile"; ThumbnailSpec.size := (256, 256);
       ThumbnailSpec.suffix := py ".jpg" |} ].

(** A [storage.Blob]: its name and its size, [None] when unknown. *)
Module Blob.

Record t := { name : str; size : option N }.

End Blob.

(** The namespace [parse_args] returns. *)
Record Namespace := {
  bucket : str;
  identifiers : list str;
  from_file : option Path.t;
  output : Path.t;
  verbose : bool
}.

(** ** The world and the effects

    What the script reads from outside: the identifier file, the object store
    and the decoder.  Each call either returns or raises.  Creating a
    directory and writing an encoded file are taken to succeed. *)

Record World := {
  read_text : Path.t -> outcome str;
  new_client : outcome unit;
  list_blobs : str -> str -> outcome (list Blob.t);
  download_as_bytes : Blob.t -> outcome (list N);
  image_open : list N -> outcome Image.t
}.

Inductive level := DEBUG | INFO | WARNING.

Definition level_no (l : level) : N :=
  match l with DEBUG => 10 | INFO => 20 | WARNING => 30 end.

Inductive message :=
| NoPortraitImages (identifier : str)
| CouldNotDetermine (identifier : str)
| Downloading (name : str) (size : option N) (identifier : str)
| Saved (destination : Path.t).

(** The effects recorded.  [Mkdir dir] is the call
    [dir.mkdir(parents=True, exist_ok=True)], which creates [dir] and any
    missing ancestor; [WriteJpeg] is a file written by a [save] that
    succeeded. *)
Inductive event :=
| ClientCreated
| ListBlobs (bucket_name prefix : str)
| Download (blob : Blob.t)
| Mkdir (dir : Path.t)
| WriteJpeg (destination : Path.t) (thumbnail : Image.t)
| Log (lvl : level) (msg : message).

(** The process state: the level of the root logger and the effects so far,
    oldest first. *)
Record state := { log_level : level; trace : list event }.

Definition initial_state : state := {| log_level := WARNING; trace := [] |}.

Definition M (A : Type) : Type := state -> outcome A * state.

#[global] Instance M_ret : MRet M := fun A a st => (Ok a, st).

#[global] Instance M_bind : MBind M := fun A B f m st =>
  match m st with
  | (Ok a, st') => f a st'
  | (Raise e, st') => (Raise e, st')
  end.

Definition raise {A} (e : exn) : M A := fun st => (Raise e, st).

Definition lift {A} (o : outcome A) : M A := fun st => (o, st).

Definition emit (e : event) : M unit := fun st =>
  (Ok tt, {| log_level := log_level st; trace := trace st ++ [e] |}).

(** [logger.log(lvl, msg)]: recorded when the level is enabled. *)
Definition log (lvl : level) (msg : message) : M unit := fun st =>
  if level_no (log_level st) <=? level_no lvl then emit (Log lvl msg) st
  else (Ok tt, st).

(** A [for] loop whose body may raise. *)
Fixpoint for_each {A} (l : list A) (body : A -> M unit) : M unit :=
  match l with
  | [] => mret tt
  | x :: r => body x ;; for_each r body
  end.

(** ** The script's functions *)

Definition nonempty_stripped (l : list str) : list str :=
  List.map strip (List.filter (fun i => truthy (strip i)) l).

Definition NO_IDENTIFIERS : str :=
  py "No identifiers provided. Use --id or --from-file.".

Definition build_identifier_list (w : World) (args : Namespace)
  : M (list str) :=
  from_lines ←
    match from_file args with
    | Some path =>
        text ← lift (read_text w path);
        mret (nonempty_stripped (splitlines text))
    | None => mret []
    end;
  let identifiers :=
    from_lines ++
      (if truthy (identifiers args)
       then nonempty_stripped (identifiers args) else []) in
  let deduped := sorted (py_set identifiers) in
  if negb (truthy deduped) then raise (SystemExit NO_IDENTIFIERS)
  else mret deduped.

Definition initialize_logging (verbose : bool) : M unit := fun st =>
  (Ok tt, {| log_level := if verbose then DEBUG else INFO;
             trace := trace st |}).

Definition is_image_blob (name : str) : bool :=
  bool_decide (lower (Path.suffix (Path.of_str name)) ∈ IMAGE_EXTENSIONS).

(** [blob.size or 0] *)
Definition size_key (blob : Blob.t) : N := default 0 (Blob.size blob).

(** [max(best :: l, key=key)]: a later element replaces the running maximum
    only when its key is strictly greater. *)
Fixpoint max_from {A} (key : A -> N) (best : A) (l : list A) : A :=
  match l with
  | [] => best
  | x :: r => if key best <? key x then max_from key x r
              else max_from key best r
  end.

Definition choose_primary_blob (blobs : list Blob.t) : option Blob.t :=
  match blobs with
  | [] => None
  | b :: r => Some (max_from size_key b r)
  end.

Definition download_image (w : World) (blob : Blob.t) : M Image.t :=
  emit (Download blob) ;;
  data ← lift (download_as_bytes w blob);
  image ← lift (image_open w data);
  if negb (Image.mode_eqb (Image.mode image) Image.RGB
           || Image.mode_eqb (Image.mode image) Image.RGBA)
  then lift (Image.convert_RGB image)
  else mret image.

(** The file system is taken to accept the [mkdir] and the write; what can
    raise here is the decoding ([copy] loads the pixel data), the scaling
    and what the JPEG writer checks before it encodes. *)
Definition save_thumbnail (image : Image.t) (destination : Path.t)
  (size : N * N) : M unit :=
  emit (Mkdir (Path.parent destination)) ;;
  thumbnail ← lift (Image.copy image);
  thumbnail ← lift (Image.thumbnail size thumbnail);
  lift (Image.check_save_jpeg thumbnail) ;;
  emit (WriteJpeg destination thumbnail).

(** The blobs [process_identifier] keeps from a listing. *)
Definition candidate (name : str) : bool :=
  negb (endswith_slash name) && is_image_blob name.

Definition process_identifier (w : World) (bucket_name identifier : str)
  (output_dir : Path.t) : M unit :=
  let prefix := rstrip_slash identifier ++ [SLASH] in
  emit (ListBlobs bucket_name prefix) ;;
  listed ← lift (list_blobs w bucket_name prefix);
  let blobs := List.filter (fun blob => candidate (Blob.name blob)) listed in
  if negb (truthy blobs) then log WARNING (NoPortraitImages identifier)
  else
    match choose_primary_blob blobs with
    | None => log WARNING (CouldNotDetermine identifier)
    | Some blob =>
        log INFO (Downloading (Blob.name blob) (Blob.size blob) identifier) ;;
        image ← download_image w blob;
        let person_dir := Path.truediv output_dir identifier in
        for_each THUMBNAILS (fun spec =>
          let destination := ThumbnailSpec.destination spec person_dir in
          save_thumbnail image destination (ThumbnailSpec.size spec) ;;
          log INFO (Saved destination))
    end.

(** [storage.Client()] *)
Definition storage_Client (w : World) : M unit :=
  lift (new_client w) ;; emit ClientCreated.

(** [main], from the parsed arguments on. *)
Definition main (w : World) (args : Namespace) : M Z :=
  initialize_logging (verbose args) ;;
  identifiers ← build_identifier_list w args;
  storage_Client w ;;
  for_each identifiers (fun identifier =>
    process_identifier w (bucket args) identifier (output args)) ;;
  mret 0%Z.

(** [sys.exit(main(...))]: the status of the process.  An exception that
    leaves [main], [SystemExit] with a message included, gives status 1. *)
Definition exit_status (r : outcome Z) : Z :=
  match r with
  | Ok n => n
  | Raise _ => 1%Z
  end.

Definition run (w : World) (args : Namespace) : Z * list event :=
  let '(r, st) := main w args initial_state in (exit_status r, trace st).

(** ** A sample world

    A bucket with five prefixes, used to run the definitions on concrete
    inputs: [jane] has a landscape JPEG among other objects, [kim] has no
    image, [lee] has a PNG with an alpha channel, [max] has an image whose
    download fails and [pal] has a palette GIF. *)

Definition mk_blob (name : string) (size : option N) : Blob.t :=
  {| Blob.name := py name; Blob.size := size |}.

Definition mk_image (m : Image.color_mode) (w h : N) : Image.t :=
  {| Image.mode := m; Image.width := w; Image.height := h;
     Image.pending := None |}.

Definition sample_listing (prefix : str) : list Blob.t :=
  if bool_decide (prefix = py "jane/") then
    [ mk_blob "jane/" (Some 0); mk_blob "jane/thumb.png" (Some 10);
      mk_blob "jane/portrait.JPG" (Some 50); mk_blob "jane/notes.txt" (Some 500);
      mk_blob "jane/icon.gif" (Some 5) ]
  else if bool_decide (prefix = py "kim/") then
    [ mk_blob "kim/" None; mk_blob "kim/cv.pdf" (Some 900) ]
  else if bool_decide (prefix = py "lee/") then [ mk_blob "lee/face.png" (Some 7) ]
  else if bool_decide (prefix = py "max/") then [ mk_blob "max/me.webp" None ]
  else if bool_decide (prefix = py "pal/") then [ mk_blob "pal/logo.gif" (Some 3) ]
  else [].

(** The sample store serves a blob's name as its content. *)
Definition sample_download (blob : Blob.t) : outcome (list N) :=
  if bool_decide (Blob.name blob = py "max/me.webp")
  then Raise (ExternalError (py "connection reset"))
  else Ok (Blob.name blob).

Definition sample_open (data : list N) : outcome Image.t :=
  if bool_decide (data = py "jane/portrait.JPG") then Ok (mk_image Image.RGB 1000 667)
  else if bool_decide (data = py "lee/face.png") then Ok (mk_image Image.RGBA 300 400)
  else if bool_decide (data = py "pal/logo.gif") then Ok (mk_image Image.P 120 80)
  else Raise (ExternalError (py "cannot identify image file")).

Definition sample_world : World :=
  {| read_text := fun _ =>
       Ok (py " kim" ++ [10] ++ py "jane  " ++ [13; 10; 10] ++ py "jane");
     new_client := Ok tt;
     list_blobs := fun _ prefix => Ok (sample_listing prefix);
     download_as_bytes := sample_download;
     image_open := sample_open |}.

Definition sample_args (ids : list string) (file : option string) : Namespace :=
  {| bucket := py "afaculty";
     identifiers := List.map py ids;
     from_file := Path.of_str <$> (py <$> file);
     output := Path.of_str (py "portraits");
     verbose := false |}.

(** ** Notions used to state the properties *)

(** The lines of the [--from-file] file, none when the option is absent. *)
Definition file_lines (w : World) (args : Namespace) : outcome (list str) :=
  match from_file args with
  | Some path =>
      match read_text w path with
      | Ok text => Ok (splitlines text)
      | Raise e => Raise e
      end
  | None => Ok []
  end.

(** [l] is the lexicographically sorted list, without repetition, of the
    entries once stripped, the ones empty after stripping left out. *)
Definition resolves (entries l : list str) : Prop :=
  StronglySorted str_lt l
  /\ forall x, x ∈ l <-> x <> [] /\ exists e, e ∈ entries /\ strip e = x.

(** The list [build_identifier_list] sorts, given the lines of the file. *)
Definition gathered (lines ids : list str) : list str :=
  nonempty_stripped lines
  ++ (if truthy ids then nonempty_stripped ids else []).

(** [m] only appends to the trace, and every event it appends satisfies
    [P]. *)
Definition appends (P : event -> Prop) {A} (m : M A) : Prop :=
  forall st, exists evs,
    trace (snd (m st)) = trace st ++ evs /\ Forall P evs.

Definition is_could_not_determine (e : event) : Prop :=
  match e with
  | Log _ (CouldNotDetermine _) => True
  | _ => False
  end.

(** The state after [evs] were appended to the trace of [st]. *)
Definition after (st : state) (evs : list event) : state :=
  {| log_level := log_level st; trace := trace st ++ evs |}.

(** The files written, in order, with the image each holds. *)
Fixpoint writes_of (evs : list event) : list (Path.t * Image.t) :=
  match evs with
  | [] => []
  | WriteJpeg destination thumbnail :: r =>
      (destination, thumbnail) :: writes_of r
  | _ :: r => writes_of r
  end.

(** [th] is [src] scaled down into [box]: it has at least one pixel each
    way, fits the box, is no larger than [src] either way, and either is
    [src] unchanged or has one side equal to the box's and the other within
    one pixel of the value proportional to it. *)
Definition scaled_into (box : N * N) (src th : Image.t) : Prop :=
  let w := Image.width src in
  let h := Image.height src in
  let w' := Image.width th in
  let h' := Image.height th in
  (1 <= w' /\ w' <= fst box) /\ (1 <= h' /\ h' <= snd box)
  /\ w' <= w /\ h' <= h
  /\ ((w' = w /\ h' = h)
      \/ (h' = snd box /\ Image.absdiff (w' * h) (snd box * w) < h)
      \/ (w' = fst box /\ Image.absdiff (h' * w) (fst box * h) < w)).

(** Kinds of events, and how many of a kind a list holds. *)
Definition is_listing (e : event) : bool :=
  match e with ListBlobs _ _ => true | _ => false end.



(** The listing requests of a trace, in order: bucket and prefix. *)
Fixpoint listings_of (evs : list event) : list (str * str) :=
  match evs with
  | [] => []
  | ListBlobs bucket_name prefix :: r => (bucket_name, prefix) :: listings_of r
  | _ :: r => listings_of r
  end.

(** A download, if [e] is one, is of a blob listed under the identifier's
    prefix that passes the filter and is as large as any other that does. *)
Definition downloads_largest_candidate (w : World)
  (bucket_name identifier : str) (e : event) : Prop :=
  match e with
  | Download blob =>
      exists listed,
        list_blobs w bucket_name (rstrip_slash identifier ++ [SLASH])
        = Ok listed
        /\ blob ∈ listed
        /\ candidate (Blob.name blob) = true
        /\ forall other, other ∈ listed ->
             candidate (Blob.name other) = true ->
             size_key other <= size_key blob
  | _ => True
  end.

(** A [mkdir] call, if [e] is one, is made on [person_dir]; a file written,
    if [e] writes one, is [cover.jpg] or [profile.jpg] directly in
    [person_dir]. *)
Definition stays_in_person_dir (person_dir : Path.t) (e : event) : Prop :=
  match e with
  | Mkdir dir => dir = person_dir
  | WriteJpeg destination thumbnail =>
      destination = Path.truediv person_dir (py "cover.jpg")
      \/ destination = Path.truediv person_dir (py "profile.jpg")
  | _ => True
  end.

(** A file written, if [e] writes one, holds a thumbnail of the image that
    [download_image] returned for the blob chosen under the identifier's
    prefix: [cover.jpg] the one for 512 by 512, [profile.jpg] the one for
    256 by 256, each accepted by the JPEG writer. *)
Definition written_by (w : World) (bucket_name identifier : str)
  (output_dir : Path.t) (e : event) : Prop :=
  match e with
  | WriteJpeg destination thumbnail =>
      exists listed blob image st1,
        list_blobs w bucket_name (rstrip_slash identifier ++ [SLASH])
        = Ok listed
        /\ choose_primary_blob
             (List.filter (fun blob => candidate (Blob.name blob)) listed)
           = Some blob
        /\ fst (download_image w blob st1) = Ok image
        /\ Image.pending image = None
        /\ Image.check_save_jpeg thumbnail = Ok tt
        /\ ((destination
             = Path.truediv (Path.truediv output_dir identifier)
                 (py "cover.jpg")
             /\ Image.thumbnail (512, 512) image = Ok thumbnail)
            \/ (destination
                = Path.truediv (Path.truediv output_dir identifier)
                    (py "profile.jpg")
                /\ Image.thumbnail (256, 256) image = Ok thumbnail))
  | _ => True
  end.

(** The arguments with [--verbose] given or not. *)
Definition set_verbose (v : bool) (args : Namespace) : Namespace :=
  {| bucket := bucket args; identifiers := identifiers args;
     from_file := from_file args; output := output args; verbose := v |}.

(** Two states with the same trace, both at a level that [initialize_logging]
    can set. *)
Definition same_trace (st1 st2 : state) : Prop :=
  trace st1 = trace st2
  /\ level_no (log_level st1) <= 20 /\ level_no (log_level st2) <= 20.

(** From such states [m] gives the same outcome and such states again. *)
Definition level_blind {A} (m : M A) : Prop :=
  forall st1 st2, same_trace st1 st2 ->
    fst (m st1) = fst (m st2) /\ same_trace (snd (m st1)) (snd (m st2)).

(** The lexicographic order on strings, by code points, as a relation. *)
Inductive lex_lt : str -> str -> Prop :=
| lex_lt_nil c s : lex_lt [] (c :: s)
| lex_lt_head x y a b : x < y -> lex_lt (x :: a) (y :: b)
| lex_lt_tail x a b : lex_lt a b -> lex_lt (x :: a) (x :: b).

(** [x] is [e] without its leading and trailing white space: [e] is [x]
    between two runs of white space, and [x] neither starts nor ends with
    white space. *)
Definition trimmed (e x : str) : Prop :=
  exists pre post,
    e = pre ++ x ++ post
    /\ Forall (fun c => isspace c = true) pre
    /\ Forall (fun c => isspace c = true) post
    /\ match x with c :: _ => isspace c = false | [] => True end
    /\ match rev x with c :: _ => isspace c = false | [] => True end.

(** [l] is the sorted, deduplicated union of the entries: strictly
    increasing in the lexicographic order, and holding exactly the entries
    trimmed, the ones that trim to nothing left out. *)
Definition sorted_union (entries l : list str) : Prop :=
  StronglySorted lex_lt l
  /\ forall x, x ∈ l <-> x <> [] /\ exists e, e ∈ entries /\ trimmed e x.

(** * Properties *)

(** ** The blob selector *)

Section Selector.

Context {A : Type} (key : A -> N).

Lemma max_from_ge best l : key best <= key (max_from key best l).
Proof.
  revert best. induction l as [|x r IH]; intros best; simpl; [lia|].
  destruct (N.ltb_spec (key best) (key x)).
  - specialize (IH x). lia.
  - apply IH.
Qed.

(** The running maximum sits at a position before which every key is
    strictly smaller and after which no key is greater. *)
Lemma max_from_split best l :
  exists pre post,
    best :: l = pre ++ max_from key best l :: post
    /\ Forall (fun x => key x < key (max_from key best l)) pre
    /\ Forall (fun x => key x <= key (max_from key best l)) post.
Proof.
  revert best. induction l as [|x r IH]; intros best; simpl.
  - exists [], []. repeat split; constructor.
  - destruct (N.ltb_spec (key best) (key x)) as [Hlt|Hge].
    + destruct (IH x) as (pre & post & E & Hpre & Hpost).
      exists (best :: pre), post. rewrite E. repeat split; auto.
      constructor; auto. pose proof (max_from_ge x r). lia.
    + destruct (IH best) as (pre & post & E & Hpre & Hpost).
      destruct pre as [|p pre'].
      * simpl in E. injection E as E1 E2. subst post.
        exists [], (x :: r). simpl. rewrite <- E1.
        repeat split; auto. constructor; [lia|].
        rewrite E1. exact Hpost.
      * simpl in E. injection E as E1 E2. subst p.
        exists (best :: x :: pre'), post. simpl. rewrite E2 at 1.
        repeat split; auto.
        inversion Hpre; subst. repeat constructor; auto. lia.
Qed.

End Selector.

Lemma choose_primary_blob_split blobs :
  blobs <> [] ->
  exists b pre post,
    choose_primary_blob blobs = Some b
    /\ blobs = pre ++ b :: post
    /\ Forall (fun x => size_key x < size_key b) pre
    /\ Forall (fun x => size_key x <= size_key b) post.
Proof.
  destruct blobs as [|b0 r]; [congruence|]. intros _.
  destruct (max_from_split size_key b0 r) as (pre & post & E & H1 & H2).
  exists (max_from size_key b0 r), pre, post. auto.
Qed.

(** C2: on a non-empty list of eligible blobs the selector returns a blob of
    the list whose size, with an unknown size counted as zero, is the maximum
    over the list; on blobs of sizes 10, 50 and 5 it returns the one of size
    50. *)
Theorem choose_primary_blob_is_max :
  (forall blobs : list Blob.t, blobs <> [] ->
     exists b, choose_primary_blob blobs = Some b
       /\ b ∈ blobs
       /\ forall b', b' ∈ blobs -> size_key b' <= size_key b)
  /\ (forall n1 n2 n3 : str,
        choose_primary_blob
          [ {| Blob.name := n1; Blob.size := Some 10 |};
            {| Blob.name := n2; Blob.size := Some 50 |};
            {| Blob.name := n3; Blob.size := Some 5 |} ]
        = Some {| Blob.name := n2; Blob.size := Some 50 |}).
Proof.
  split; [|reflexivity].
  intros blobs Hne.
  destruct (choose_primary_blob_split blobs Hne)
    as (b & pre & post & Hc & E & Hpre & Hpost).
  exists b. split; [exact Hc|]. subst blobs. split.
  - apply elem_of_app. right. apply list_elem_of_here.
  - intros b' Hin. rewrite Forall_forall in Hpre, Hpost.
    apply elem_of_app in Hin as [Hin|Hin].
    + apply N.lt_le_incl, Hpre, Hin.
    + apply elem_of_cons in Hin as [->|Hin]; [lia|]. apply Hpost, Hin.
Qed.

Lemma choose_primary_blob_is_max_witness :
  let blobs := [mk_blob "a/x.png" None; mk_blob "a/y.png" (Some 3)] in
  exists b, choose_primary_blob blobs = Some b
    /\ b ∈ blobs
    /\ forall b', b' ∈ blobs -> size_key b' <= size_key b.
Proof.
  intros blobs. apply (proj1 choose_primary_blob_is_max blobs). discriminate.
Defined.

(** C10: on a non-empty list the selector returns the first blob of maximal
    size in listing order: every blob listed before it is strictly smaller,
    no blob listed after it is larger.  Blobs tied at the maximum therefore
    lose to the earliest of them. *)
Theorem choose_primary_blob_first_maximal :
  forall blobs : list Blob.t, blobs <> [] ->
    exists b pre post,
      choose_primary_blob blobs = Some b
      /\ blobs = pre ++ b :: post
      /\ (forall x, x ∈ pre -> size_key x < size_key b)
      /\ (forall x, x ∈ post -> size_key x <= size_key b).
Proof.
  intros blobs Hne.
  destruct (choose_primary_blob_split blobs Hne)
    as (b & pre & post & Hc & E & Hpre & Hpost).
  exists b, pre, post. rewrite Forall_forall in Hpre, Hpost. auto.
Qed.

Lemma choose_primary_blob_first_maximal_witness :
  let blobs := [mk_blob "a/w.png" (Some 2); mk_blob "a/x.png" (Some 9);
                mk_blob "a/y.png" None; mk_blob "a/z.png" (Some 9)] in
  exists b pre post,
    choose_primary_blob blobs = Some b
    /\ blobs = pre ++ b :: post
    /\ (forall x, x ∈ pre -> size_key x < size_key b)
    /\ (forall x, x ∈ post -> size_key x <= size_key b).
Proof.
  intros blobs. apply (choose_primary_blob_first_maximal blobs). discriminate.
Defined.

Example choose_primary_blob_tie :
  choose_primary_blob
    [mk_blob "a/w.png" (Some 2); mk_blob "a/x.png" (Some 9);
     mk_blob "a/y.png" None; mk_blob "a/z.png" (Some 9)]
  = Some (mk_blob "a/x.png" (Some 9)).
Proof. reflexivity. Qed.

(** ** The order on strings *)

Lemma str_leb_refl a : str_leb a a = true.
Proof.
  induction a as [|x a IH]; simpl; [reflexivity|].
  rewrite N.ltb_irrefl, N.eqb_refl. exact IH.
Qed.

Lemma str_leb_total a b : str_leb a b = true \/ str_leb b a = true.
Proof.
  revert b. induction a as [|x a IH]; intros [|y b]; simpl; auto.
  destruct (N.ltb_spec x y), (N.ltb_spec y x); auto; try lia.
  assert (x = y) as -> by lia. rewrite N.eqb_refl. apply IH.
Qed.

Lemma str_leb_trans a b c :
  str_leb a b = true -> str_leb b c = true -> str_leb a c = true.
Proof.
  revert b c. induction a as [|x a IH]; intros [|y b] [|z c]; simpl; auto;
    try discriminate.
  destruct (N.ltb_spec x y), (N.ltb_spec y z), (N.ltb_spec x z);
    destruct (N.eqb_spec x y), (N.eqb_spec y z), (N.eqb_spec x z);
    try discriminate; try lia; auto. apply IH.
Qed.

Lemma str_leb_antisym a b :
  str_leb a b = true -> str_leb b a = true -> a = b.
Proof.
  revert b. induction a as [|x a IH]; intros [|y b]; simpl; auto;
    try discriminate.
  destruct (N.ltb_spec x y), (N.ltb_spec y x);
    destruct (N.eqb_spec x y), (N.eqb_spec y x);
    try discriminate; try lia. subst y. intros H1 H2. f_equal. auto.
Qed.

#[global] Instance str_le_total : Total str_le.
Proof. intros a b. apply str_leb_total. Qed.

#[global] Instance str_le_trans : Transitive str_le.
Proof. intros a b c. apply str_leb_trans. Qed.

#[global] Instance str_lt_antisym : AntiSymm (=) str_lt.
Proof. intros a b [H1 _] [H2 _]. apply str_leb_antisym; assumption. Qed.

Lemma str_lt_sorted_NoDup (l : list str) : StronglySorted str_lt l -> NoDup l.
Proof.
  induction 1 as [|x l Hs IH Hx]; constructor; auto.
  intros Hin. rewrite Forall_forall in Hx.
  destruct (Hx x Hin) as [_ Hne]. congruence.
Qed.

Lemma str_le_sorted_strict (l : list str) :
  StronglySorted str_le l -> NoDup l -> StronglySorted str_lt l.
Proof.
  induction 1 as [|x l Hs IH Hx]; intros Hnd; constructor.
  - apply IH. apply NoDup_cons in Hnd. tauto.
  - apply NoDup_cons in Hnd as [Hnin _].
    rewrite Forall_forall in Hx |- *. intros y Hy. split; [auto|].
    intros ->. contradiction.
Qed.

(** Two strictly sorted lists with the same elements are the same list. *)
Lemma str_lt_sorted_unique (l1 l2 : list str) :
  StronglySorted str_lt l1 -> StronglySorted str_lt l2 ->
  (forall x, x ∈ l1 <-> x ∈ l2) -> l1 = l2.
Proof.
  intros H1 H2 Hiff. apply (StronglySorted_unique str_lt); auto.
  apply NoDup_Permutation; auto using str_lt_sorted_NoDup.
Qed.

(** ** The identifier source *)

Lemma sorted_py_set_strict (l : list str) :
  StronglySorted str_lt (sorted (py_set l)).
Proof.
  unfold sorted. apply str_le_sorted_strict.
  - apply StronglySorted_merge_sort; apply _.
  - rewrite merge_sort_Permutation. apply NoDup_elements.
Qed.

Lemma elem_of_sorted_py_set (l : list str) x : x ∈ sorted (py_set l) <-> x ∈ l.
Proof.
  unfold sorted, py_set. rewrite merge_sort_Permutation, elem_of_elements.
  apply elem_of_list_to_set.
Qed.

Lemma truthy_nonempty {A} (l : list A) : truthy l = true <-> l <> [].
Proof. destruct l; simpl; split; congruence. Qed.

Lemma elem_of_nonempty_stripped (l : list str) x :
  x ∈ nonempty_stripped l <-> x <> [] /\ exists e, e ∈ l /\ strip e = x.
Proof.
  unfold nonempty_stripped.
  rewrite list_elem_of_In, in_map_iff. split.
  - intros (e & <- & He). apply filter_In in He as [He Ht].
    apply truthy_nonempty in Ht. rewrite <- list_elem_of_In in He. eauto.
  - intros (Hne & e & He & <-). exists e. split; [reflexivity|].
    apply filter_In. rewrite <- list_elem_of_In.
    split; [exact He|]. apply truthy_nonempty, Hne.
Qed.

Lemma elem_of_gathered lines ids x :
  x ∈ gathered lines ids
  <-> x <> [] /\ exists e, e ∈ lines ++ ids /\ strip e = x.
Proof.
  unfold gathered. rewrite elem_of_app.
  assert ((if truthy ids then nonempty_stripped ids else [])
          = nonempty_stripped ids) as -> by (destruct ids; reflexivity).
  rewrite !elem_of_nonempty_stripped. split.
  - intros [(Hne & e & He & Hs)|(Hne & e & He & Hs)];
      (split; [exact Hne|]); exists e; rewrite elem_of_app; auto.
  - intros (Hne & e & He & Hs). apply elem_of_app in He as [He|He];
      [left|right]; eauto.
Qed.

Lemma sorted_gathered_resolves lines ids :
  resolves (lines ++ ids) (sorted (py_set (gathered lines ids))).
Proof.
  split; [apply sorted_py_set_strict|].
  intros x. rewrite elem_of_sorted_py_set. apply elem_of_gathered.
Qed.

Lemma resolves_unique entries l1 l2 :
  resolves entries l1 -> resolves entries l2 -> l1 = l2.
Proof.
  intros [S1 M1] [S2 M2]. apply str_lt_sorted_unique; auto.
  intros x. rewrite M1, M2. reflexivity.
Qed.

Lemma resolves_Permutation entries entries' l :
  entries' ≡ₚ entries -> resolves entries l -> resolves entries' l.
Proof.
  intros Hp [S1 M1]. split; [exact S1|]. intros x. rewrite M1.
  split; intros (Hne & e & He & Hs); (split; [exact Hne|]); exists e;
    (split; [|exact Hs]); [rewrite Hp|rewrite <- Hp]; exact He.
Qed.

Lemma build_identifier_list_run w args lines st :
  file_lines w args = Ok lines ->
  build_identifier_list w args st
  = (match sorted (py_set (gathered lines (identifiers args))) with
     | [] => Raise (SystemExit NO_IDENTIFIERS)
     | x :: r => Ok (x :: r)
     end, st).
Proof.
  unfold file_lines, build_identifier_list, gathered, mbind, M_bind, mret,
    M_ret, lift, raise.
  destruct (from_file args) as [path|].
  - destruct (read_text w path) as [text|e]; [|discriminate].
    intros [= <-]. simpl.
    destruct (sorted _); reflexivity.
  - intros [= <-]. simpl. destruct (sorted _); reflexivity.
Qed.

Example build_identifier_list_sample :
  build_identifier_list sample_world
    (sample_args [" lee"; "jane"]%string (Some "ids.txt"%string)) initial_state
  = (Ok [py "jane"; py "kim"; py "lee"], initial_state).
Proof. vm_compute. reflexivity. Qed.

Lemma sorted_empty_when_all_blank lines ids :
  (forall e, e ∈ lines ++ ids -> strip e = []) ->
  sorted (py_set (gathered lines ids)) = [].
Proof.
  intros Hblank.
  destruct (sorted _) as [|x r] eqn:E; [reflexivity|exfalso].
  assert (x ∈ sorted (py_set (gathered lines ids))) as Hin
    by (rewrite E; apply list_elem_of_here).
  apply elem_of_sorted_py_set, elem_of_gathered in Hin
    as (Hne & e & He & Hs).
  apply Hne. rewrite <- Hs. apply Hblank, He.
Qed.

(** C6: when no identifier is left (neither source given, or every entry
    empty once stripped) [main] raises [SystemExit], so the process ends with
    a non-zero status, and up to that point nothing was added to the trace:
    no client was constructed and no listing or download was issued. *)
Theorem no_identifiers_exits_before_any_network_call :
  forall w args lines st,
    file_lines w args = Ok lines ->
    (forall e, e ∈ lines ++ identifiers args -> strip e = []) ->
    exists st',
      main w args st = (Raise (SystemExit NO_IDENTIFIERS), st')
      /\ trace st' = trace st
      /\ exit_status (fst (main w args st)) <> 0%Z
      /\ run w args = (1%Z, []).
Proof.
  intros w args lines st Hf Hblank.
  assert (forall s, main w args s
            = (Raise (SystemExit NO_IDENTIFIERS),
               {| log_level := if verbose args then DEBUG else INFO;
                  trace := trace s |})) as Hmain.
  { intros s. unfold main, mbind, M_bind, initialize_logging.
    rewrite (build_identifier_list_run w args lines _ Hf).
    rewrite (sorted_empty_when_all_blank _ _ Hblank). reflexivity. }
  eexists. split; [apply Hmain|]. split; [reflexivity|]. split.
  - rewrite Hmain. simpl. discriminate.
  - unfold run. rewrite Hmain. reflexivity.
Qed.

Lemma no_identifiers_exits_before_any_network_call_witness :
  let args := sample_args ["  "; ""]%string None in
  exists st',
    main sample_world args initial_state
    = (Raise (SystemExit NO_IDENTIFIERS), st')
    /\ trace st' = trace initial_state
    /\ exit_status (fst (main sample_world args initial_state)) <> 0%Z
    /\ run sample_world args = (1%Z, []).
Proof.
  intros args.
  apply (no_identifiers_exits_before_any_network_call sample_world args []
           initial_state).
  - reflexivity.
  - intros e He. simpl in He.
    apply elem_of_cons in He as [->|He]; [reflexivity|].
    apply elem_of_cons in He as [->|He]; [reflexivity|].
    apply elem_of_nil in He. destruct He.
Defined.

(** ** Running monadic code *)

Lemma bind_run {A B} (m : M A) (f : A -> M B) st :
  (m ≫= f) st
  = match m st with
    | (Ok a, st') => f a st'
    | (Raise e, st') => (Raise e, st')
    end.
Proof. reflexivity. Qed.

Lemma after_nil st : after st [] = st.
Proof. destruct st. unfold after. simpl. rewrite app_nil_r. reflexivity. Qed.

Lemma after_after st e1 e2 : after (after st e1) e2 = after st (e1 ++ e2).
Proof. unfold after. simpl. rewrite app_assoc. reflexivity. Qed.

Lemma emit_run e st : emit e st = (Ok tt, after st [e]).
Proof. reflexivity. Qed.

(** Every level the script configures lets warnings through. *)
Lemma log_warning_run msg st :
  log WARNING msg st = (Ok tt, after st [Log WARNING msg]).
Proof. unfold log. destruct (log_level st); reflexivity. Qed.

Lemma for_each_app {A} (body : A -> M unit) l1 l2 st :
  for_each (l1 ++ l2) body st
  = match for_each l1 body st with
    | (Ok _, st') => for_each l2 body st'
    | (Raise e, st') => (Raise e, st')
    end.
Proof.
  revert st. induction l1 as [|x l1 IH]; intros st; [reflexivity|].
  simpl. rewrite !bind_run. destruct (body x st) as [[[]|e] st']; auto.
Qed.

Lemma for_each_all_ok {A} (body : A -> M unit) l :
  (forall x st, x ∈ l -> fst (body x st) = Ok tt) ->
  forall st, fst (for_each l body st) = Ok tt.
Proof.
  induction l as [|x l IH]; intros Hok st; [reflexivity|].
  simpl. rewrite bind_run.
  pose proof (Hok x st (list_elem_of_here _ _)) as Hx.
  destruct (body x st) as [[[]|e] st']; simpl in Hx; [|discriminate].
  apply IH. intros y s Hy. apply Hok. apply list_elem_of_further, Hy.
Qed.

(** ** Code that only appends events *)

Section Appends.

Context (P : event -> Prop).

Lemma appends_ret {A} (a : A) : appends P (mret a).
Proof. intros st. exists []. simpl. rewrite app_nil_r. auto. Qed.

Lemma appends_lift {A} (o : outcome A) : appends P (lift o).
Proof. intros st. exists []. simpl. rewrite app_nil_r. auto. Qed.

Lemma appends_emit e : P e -> appends P (emit e).
Proof. intros He st. exists [e]. simpl. auto. Qed.

Lemma appends_log lvl msg : P (Log lvl msg) -> appends P (log lvl msg).
Proof.
  intros He st. unfold log.
  destruct (level_no (log_level st) <=? level_no lvl).
  - apply appends_emit, He.
  - exists []. simpl. rewrite app_nil_r. auto.
Qed.

Lemma appends_bind {A B} (m : M A) (f : A -> M B) :
  appends P m -> (forall a, appends P (f a)) -> appends P (m ≫= f).
Proof.
  intros Hm Hf st. rewrite bind_run.
  destruct (Hm st) as (e1 & E1 & F1).
  destruct (m st) as [[a|e] st1]; simpl in E1.
  - destruct (Hf a st1) as (e2 & E2 & F2).
    exists (e1 ++ e2). rewrite E2, E1, app_assoc.
    split; [reflexivity|]. apply Forall_app; auto.
  - exists e1. auto.
Qed.

Lemma appends_for_each {A} (body : A -> M unit) l :
  (forall x, appends P (body x)) -> appends P (for_each l body).
Proof.
  intros Hb. induction l as [|x l IH]; simpl.
  - apply (appends_ret tt).
  - apply appends_bind; auto.
Qed.

End Appends.

(** ** The orchestrator *)

Section Orchestrator.

Variable w : World.
Variables (bucket_name : str) (output_dir : Path.t).

Lemma log_run lvl msg st :
  exists evs, log lvl msg st = (Ok tt, after st evs) /\ writes_of evs = [].
Proof.
  unfold log. destruct (level_no (log_level st) <=? level_no lvl).
  - exists [Log lvl msg]. auto.
  - exists []. rewrite after_nil. auto.
Qed.

Lemma process_identifier_listed identifier st listed :
  list_blobs w bucket_name (rstrip_slash identifier ++ [SLASH]) = Ok listed ->
  process_identifier w bucket_name identifier output_dir st
  = (let blobs := List.filter (fun blob => candidate (Blob.name blob)) listed in
     if negb (truthy blobs) then log WARNING (NoPortraitImages identifier)
     else
       match choose_primary_blob blobs with
       | None => log WARNING (CouldNotDetermine identifier)
       | Some blob =>
           log INFO (Downloading (Blob.name blob) (Blob.size blob) identifier) ;;
           image ← download_image w blob;
           for_each THUMBNAILS (fun spec =>
             let destination :=
               ThumbnailSpec.destination spec
                 (Path.truediv output_dir identifier) in
             save_thumbnail image destination (ThumbnailSpec.size spec) ;;
             log INFO (Saved destination))
       end)
      (after st [ListBlobs bucket_name (rstrip_slash identifier ++ [SLASH])]).
Proof.
  intros H. unfold process_identifier. rewrite !bind_run, emit_run.
  unfold lift. rewrite H. reflexivity.
Qed.

Lemma process_identifier_no_candidates identifier st listed :
  list_blobs w bucket_name (rstrip_slash identifier ++ [SLASH]) = Ok listed ->
  List.filter (fun blob => candidate (Blob.name blob)) listed = [] ->
  process_identifier w bucket_name identifier output_dir st
  = (Ok tt,
     after st [ListBlobs bucket_name (rstrip_slash identifier ++ [SLASH]);
               Log WARNING (NoPortraitImages identifier)]).
Proof.
  intros Hl Hf. rewrite (process_identifier_listed _ _ _ Hl). simpl.
  rewrite Hf. simpl. rewrite log_warning_run, after_after. reflexivity.
Qed.

Lemma choose_primary_blob_nonempty blobs blob :
  choose_primary_blob blobs = Some blob -> truthy blobs = true.
Proof. destruct blobs; [discriminate|reflexivity]. Qed.

Lemma download_image_raises blob e st :
  download_as_bytes w blob = Raise e
  \/ (exists data, download_as_bytes w blob = Ok data
                   /\ image_open w data = Raise e) ->
  download_image w blob st = (Raise e, after st [Download blob]).
Proof.
  unfold download_image. rewrite !bind_run, emit_run. unfold lift.
  intros [H|(data & H1 & H2)].
  - rewrite H. reflexivity.
  - rewrite H1. rewrite bind_run. rewrite H2. reflexivity.
Qed.

Lemma download_image_opened blob data im st :
  download_as_bytes w blob = Ok data ->
  image_open w data = Ok im ->
  download_image w blob st
  = (if negb (Image.mode_eqb (Image.mode im) Image.RGB
              || Image.mode_eqb (Image.mode im) Image.RGBA)
     then Image.convert_RGB im else Ok im,
     after st [Download blob]).
Proof.
  intros H1 H2. unfold download_image. rewrite !bind_run, emit_run.
  unfold lift. rewrite H1, bind_run, H2, bind_run.
  destruct (negb _); reflexivity.
Qed.

Lemma save_thumbnail_pending image destination size e st :
  Image.pending image = Some e ->
  save_thumbnail image destination size st
  = (Raise e, after st [Mkdir (Path.parent destination)]).
Proof.
  intros H. unfold save_thumbnail. rewrite !bind_run, emit_run.
  unfold lift, Image.copy, Image.load. rewrite H. reflexivity.
Qed.

(** A failure to download the chosen blob, to open it, or to decode its
    pixel data leaves [process_identifier] as the exception raised. *)
Lemma process_identifier_raises identifier st listed blob e :
  list_blobs w bucket_name (rstrip_slash identifier ++ [SLASH]) = Ok listed ->
  choose_primary_blob
    (List.filter (fun blob => candidate (Blob.name blob)) listed) = Some blob ->
  download_as_bytes w blob = Raise e
  \/ (exists data, download_as_bytes w blob = Ok data
                   /\ image_open w data = Raise e)
  \/ (exists data im, download_as_bytes w blob = Ok data
                      /\ image_open w data = Ok im
                      /\ Image.pending im = Some e) ->
  fst (process_identifier w bucket_name identifier output_dir st) = Raise e.
Proof.
  intros Hl Hc Hfail. rewrite (process_identifier_listed _ _ _ Hl). simpl.
  rewrite (choose_primary_blob_nonempty _ _ Hc), Hc. simpl.
  rewrite bind_run.
  destruct (log_run INFO (Downloading (Blob.name blob) (Blob.size blob)
                            identifier)
              (after st [ListBlobs bucket_name
                           (rstrip_slash identifier ++ [SLASH])]))
    as (evs & -> & _).
  rewrite bind_run.
  destruct Hfail as [H|[H|(data & im & H1 & H2 & H3)]].
  - rewrite (download_image_raises blob e) by auto. reflexivity.
  - rewrite (download_image_raises blob e) by auto. reflexivity.
  - rewrite (download_image_opened _ _ _ _ H1 H2).
    unfold Image.convert_RGB, Image.load. rewrite H3.
    destruct (negb _); [reflexivity|].
    simpl. rewrite !bind_run.
    rewrite (save_thumbnail_pending _ _ _ _ _ H3). reflexivity.
Qed.

Lemma writes_of_app e1 e2 : writes_of (e1 ++ e2) = writes_of e1 ++ writes_of e2.
Proof.
  induction e1 as [|e r IH]; [reflexivity|].
  destruct e; simpl; rewrite ?IH; reflexivity.
Qed.

Lemma download_image_appends P blob :
  P (Download blob) -> appends P (download_image w blob).
Proof.
  intros HP. unfold download_image.
  apply appends_bind; [apply appends_emit, HP|]. intros _.
  apply appends_bind; [apply appends_lift|]. intros data.
  apply appends_bind; [apply appends_lift|]. intros image.
  destruct (negb _); [apply appends_lift|apply appends_ret].
Qed.

Lemma save_thumbnail_appends (P : event -> Prop) image destination size :
  P (Mkdir (Path.parent destination)) ->
  (forall thumbnail, P (WriteJpeg destination thumbnail)) ->
  appends P (save_thumbnail image destination size).
Proof.
  intros H1 H2. unfold save_thumbnail.
  apply appends_bind; [apply appends_emit, H1|]. intros _.
  apply appends_bind; [apply appends_lift|]. intros t1.
  apply appends_bind; [apply appends_lift|]. intros t2.
  apply appends_bind; [apply appends_lift|]. intros _.
  apply appends_emit, H2.
Qed.

Lemma process_identifier_never_could_not_determine identifier :
  appends (fun e => ~ is_could_not_determine e)
    (process_identifier w bucket_name identifier output_dir).
Proof.
  unfold process_identifier.
  apply appends_bind; [apply appends_emit; simpl; tauto|]. intros _.
  apply appends_bind; [apply appends_lift|]. intros listed.
  destruct (List.filter _ listed) as [|b r];
    cbn [truthy negb choose_primary_blob].
  - apply appends_log. simpl. tauto.
  - apply appends_bind; [apply appends_log; simpl; tauto|]. intros _.
    apply appends_bind; [apply download_image_appends; simpl; tauto|].
    intros image. apply appends_for_each. intros spec.
    apply appends_bind;
      [apply save_thumbnail_appends; simpl; tauto|].
    intros _. apply appends_log. simpl. tauto.
Qed.

(** C9: on a non-empty list [choose_primary_blob] returns a blob, never
    [None]; and since [process_identifier] calls it only on a non-empty list
    of candidates, the warning of its [None] branch is never logged, at any
    level and for any identifier, by any call of [process_identifier]. *)
Theorem could_not_determine_branch_unreachable :
  (forall blobs : list Blob.t, blobs <> [] ->
     exists blob, choose_primary_blob blobs = Some blob)
  /\ (forall identifier st,
        exists evs,
          trace (snd (process_identifier w bucket_name identifier output_dir st))
          = trace st ++ evs
          /\ forall lvl id, Log lvl (CouldNotDetermine id) ∉ evs).
Proof.
  split.
  - intros [|b r] H; [congruence|]. simpl. eauto.
  - intros identifier st.
    destruct (process_identifier_never_could_not_determine identifier st)
      as (evs & E & F).
    exists evs. split; [exact E|]. intros lvl id Hin.
    rewrite Forall_forall in F. apply (F _ Hin). exact Logic.I.
Qed.

(** C7: when the listing of an identifier has no candidate blob,
    [process_identifier] returns normally having appended the listing request
    and one warning to the trace, so no new file is written; the loop then
    goes on with the next identifier.  And a run whose identifiers resolve to
    a non-empty list, whose client is constructed and each of whose
    [process_identifier] calls returns normally (thumbnails written, or
    identifier skipped as above) ends with status 0. *)
Theorem no_candidates_skips_identifier_and_run_exits_zero :
  (forall identifier st listed,
     list_blobs w bucket_name (rstrip_slash identifier ++ [SLASH]) = Ok listed ->
     List.filter (fun blob => candidate (Blob.name blob)) listed = [] ->
     exists st',
       process_identifier w bucket_name identifier output_dir st = (Ok tt, st')
       /\ trace st'
          = trace st
            ++ [ListBlobs bucket_name (rstrip_slash identifier ++ [SLASH]);
                Log WARNING (NoPortraitImages identifier)]
       /\ writes_of (trace st') = writes_of (trace st)
       /\ forall rest,
            for_each (identifier :: rest)
              (fun id => process_identifier w bucket_name id output_dir) st
            = for_each rest
                (fun id => process_identifier w bucket_name id output_dir) st')
  /\ (forall args lines ids,
        file_lines w args = Ok lines ->
        resolves (lines ++ identifiers args) ids ->
        ids <> [] ->
        new_client w = Ok tt ->
        (forall id st, id ∈ ids ->
           fst (process_identifier w (bucket args) id (output args) st)
           = Ok tt) ->
        fst (run w args) = 0%Z).
Proof.
  split.
  - intros identifier st listed Hl Hf.
    eexists. split; [apply (process_identifier_no_candidates _ _ _ Hl Hf)|].
    split; [reflexivity|]. split.
    + simpl. rewrite writes_of_app. simpl. apply app_nil_r.
    + intros rest. simpl. rewrite bind_run.
      rewrite (process_identifier_no_candidates _ _ _ Hl Hf). reflexivity.
  - intros args lines ids Hf Hres Hne Hc Hok.
    unfold run, main. rewrite bind_run. unfold initialize_logging.
    rewrite bind_run, (build_identifier_list_run w args lines _ Hf).
    rewrite (resolves_unique _ _ _
               (sorted_gathered_resolves lines (identifiers args)) Hres).
    destruct ids as [|i ids']; [congruence|].
    rewrite bind_run. unfold storage_Client. rewrite bind_run.
    unfold lift. rewrite Hc, emit_run, bind_run.
    pose proof (for_each_all_ok
                  (fun id => process_identifier w (bucket args) id (output args))
                  (i :: ids')
                  (fun x st Hx => Hok x st Hx)
                  (after {| log_level := if verbose args then DEBUG else INFO;
                            trace := trace initial_state |} [ClientCreated]))
      as Hall.
    destruct (for_each _ _ _) as [[[]|e] st']; simpl in Hall; [|discriminate].
    reflexivity.
Qed.

(** C8: when the download of the blob chosen for the identifier at some
    position fails, or the downloaded bytes cannot be opened or decoded, the
    exception leaves [process_identifier] and the loop with it: the loop
    ends in that exception, in the state reached inside that call, whatever
    identifiers follow; nothing is listed, downloaded or written for them. *)
Theorem failure_aborts_remaining_identifiers :
  forall pre identifier st st1 listed blob e,
    for_each pre
      (fun id => process_identifier w bucket_name id output_dir) st
    = (Ok tt, st1) ->
    list_blobs w bucket_name (rstrip_slash identifier ++ [SLASH]) = Ok listed ->
    choose_primary_blob
      (List.filter (fun blob => candidate (Blob.name blob)) listed)
    = Some blob ->
    download_as_bytes w blob = Raise e
    \/ (exists data, download_as_bytes w blob = Ok data
                     /\ image_open w data = Raise e)
    \/ (exists data im, download_as_bytes w blob = Ok data
                        /\ image_open w data = Ok im
                        /\ Image.pending im = Some e) ->
    exists st2,
      process_identifier w bucket_name identifier output_dir st1
      = (Raise e, st2)
      /\ forall post,
           for_each (pre ++ identifier :: post)
             (fun id => process_identifier w bucket_name id output_dir) st
           = (Raise e, st2).
Proof.
  intros pre identifier st st1 listed blob e Hpre Hl Hc Hfail.
  pose proof (process_identifier_raises identifier st1 listed blob e Hl Hc Hfail)
    as Hr.
  destruct (process_identifier w bucket_name identifier output_dir st1)
    as [r st2] eqn:E.
  simpl in Hr. subst r. exists st2. split; [reflexivity|].
  intros post. rewrite for_each_app, Hpre. simpl. rewrite bind_run, E.
  reflexivity.
Qed.

End Orchestrator.

Lemma could_not_determine_branch_unreachable_witness :
  exists blob,
    choose_primary_blob [mk_blob "kim/a.png" None; mk_blob "kim/b.png" None]
    = Some blob.
Proof.
  apply (proj1 (could_not_determine_branch_unreachable sample_world
                  (py "afaculty") (Path.of_str (py "portraits")))).
  discriminate.
Defined.

Lemma no_candidates_skips_identifier_and_run_exits_zero_witness :
  (exists st',
     process_identifier sample_world (py "afaculty") (py "kim")
       (Path.of_str (py "portraits")) initial_state = (Ok tt, st')
     /\ trace st'
        = trace initial_state
          ++ [ListBlobs (py "afaculty") (rstrip_slash (py "kim") ++ [SLASH]);
              Log WARNING (NoPortraitImages (py "kim"))]
     /\ writes_of (trace st') = writes_of (trace initial_state)
     /\ forall rest,
          for_each (py "kim" :: rest)
            (fun id => process_identifier sample_world (py "afaculty") id
                         (Path.of_str (py "portraits"))) initial_state
          = for_each rest
              (fun id => process_identifier sample_world (py "afaculty") id
                           (Path.of_str (py "portraits"))) st')
  /\ fst (run sample_world (sample_args ["kim"; "jane"; "pal"]%string None))
     = 0%Z.
Proof.
  pose proof (no_candidates_skips_identifier_and_run_exits_zero sample_world
                (py "afaculty") (Path.of_str (py "portraits"))) as [H1 H2].
  split.
  - apply (H1 (py "kim") initial_state
              [mk_blob "kim/" None; mk_blob "kim/cv.pdf" (Some 900)]);
      reflexivity.
  - apply (H2 (sample_args ["kim"; "jane"; "pal"]%string None) []
              (sorted (py_set (gathered []
                 (identifiers
                    (sample_args ["kim"; "jane"; "pal"]%string None)))))).
    + reflexivity.
    + apply sorted_gathered_resolves.
    + vm_compute. discriminate.
    + reflexivity.
    + intros id [lvl tr] Hin. vm_compute in Hin.
      apply elem_of_cons in Hin as [->|Hin];
        [destruct lvl; vm_compute; reflexivity|].
      apply elem_of_cons in Hin as [->|Hin];
        [destruct lvl; vm_compute; reflexivity|].
      apply elem_of_cons in Hin as [->|Hin];
        [destruct lvl; vm_compute; reflexivity|].
      apply elem_of_nil in Hin. destruct Hin.
Defined.

Lemma failure_aborts_remaining_identifiers_witness :
  let body := fun id => process_identifier sample_world (py "afaculty") id
                          (Path.of_str (py "portraits")) in
  exists st2,
    process_identifier sample_world (py "afaculty") (py "max")
      (Path.of_str (py "portraits"))
      (snd (for_each [py "jane"; py "kim"] body initial_state))
    = (Raise (ExternalError (py "connection reset")), st2)
    /\ forall post,
         for_each ([py "jane"; py "kim"] ++ py "max" :: post) body initial_state
         = (Raise (ExternalError (py "connection reset")), st2).
Proof.
  intros body.
  apply (failure_aborts_remaining_identifiers sample_world (py "afaculty")
           (Path.of_str (py "portraits")) [py "jane"; py "kim"] (py "max")
           initial_state (snd (for_each [py "jane"; py "kim"] body initial_state))
           [mk_blob "max/me.webp" None] (mk_blob "max/me.webp" None)).
  - vm_compute. reflexivity.
  - reflexivity.
  - reflexivity.
  - left. reflexivity.
Defined.

Example failure_aborts_run :
  run sample_world (sample_args ["pal"; "max"; "kim"]%string None)
  = (1%Z,
     [ClientCreated;
      ListBlobs (py "afaculty") (py "kim/");
      Log WARNING (NoPortraitImages (py "kim"));
      ListBlobs (py "afaculty") (py "max/");
      Log INFO (Downloading (py "max/me.webp") None (py "max"));
      Download (mk_blob "max/me.webp" None)]).
Proof. vm_compute. reflexivity. Qed.

(** ** The blob filter *)

Lemma lower_cp_eqb_slash c : (lower_cp c =? SLASH) = (c =? SLASH).
Proof.
  unfold lower_cp, SLASH.
  destruct (N.leb_spec 65 c), (N.leb_spec c 90); simpl;
    destruct (N.eqb_spec (c + 32) 47), (N.eqb_spec c 47); auto; lia.
Qed.

Lemma lower_cp_eqb_dot c : (lower_cp c =? DOT) = (c =? DOT).
Proof.
  unfold lower_cp, DOT.
  destruct (N.leb_spec 65 c), (N.leb_spec c 90); simpl;
    destruct (N.eqb_spec (c + 32) 46), (N.eqb_spec c 46); auto; lia.
Qed.

Lemma lower_cp_idemp c : lower_cp (lower_cp c) = lower_cp c.
Proof.
  unfold lower_cp.
  destruct (N.leb_spec 65 c), (N.leb_spec c 90); simpl;
    destruct (N.leb_spec 65 (c + 32)), (N.leb_spec (c + 32) 90); simpl;
    destruct (N.leb_spec 65 c), (N.leb_spec c 90); simpl; lia.
Qed.

Lemma lower_idemp s : lower (lower s) = lower s.
Proof.
  unfold lower. rewrite List.map_map. apply List.map_ext, lower_cp_idemp.
Qed.

Lemma lower_length s : length (lower s) = length s.
Proof. apply List.length_map. Qed.

Lemma lower_truthy s : truthy (lower s) = truthy s.
Proof. destruct s; reflexivity. Qed.

Lemma lower_endswith_slash s : endswith_slash (lower s) = endswith_slash s.
Proof.
  unfold endswith_slash, lower. rewrite <- List.map_rev.
  destruct (rev s); simpl; [reflexivity|apply lower_cp_eqb_slash].
Qed.

Lemma lower_lstrip_by (p : N -> bool) s :
  (forall c, p (lower_cp c) = p c) ->
  lstrip_by p (lower s) = lower (lstrip_by p s).
Proof.
  intros Hp. induction s as [|c r IH]; [reflexivity|].
  change (lower (c :: r)) with (lower_cp c :: lower r).
  cbn [lstrip_by]. rewrite Hp. destruct (p c); [exact IH|reflexivity].
Qed.

Lemma lower_lstrip_slash s : lstrip_slash (lower s) = lower (lstrip_slash s).
Proof.
  apply lower_lstrip_by. intros c.
  rewrite !(N.eqb_sym SLASH). apply lower_cp_eqb_slash.
Qed.

Lemma lower_split_on_slash s :
  split_on SLASH (lower s) = List.map lower (split_on SLASH s).
Proof.
  induction s as [|c r IH]; simpl; [reflexivity|].
  rewrite lower_cp_eqb_slash. destruct (c =? SLASH); simpl.
  - rewrite IH. reflexivity.
  - fold (lower r). rewrite IH.
    destruct (split_on SLASH r); reflexivity.
Qed.

Lemma lower_is_dot x : lower x = [DOT] <-> x = [DOT].
Proof.
  destruct x as [|c [|d r]]; simpl; split; try discriminate.
  - intros [= H]. f_equal. apply N.eqb_eq.
    rewrite <- lower_cp_eqb_dot. apply N.eqb_eq, H.
  - intros [= ->]. reflexivity.
Qed.

Lemma lower_keep_component x :
  Path.keep_component (lower x) = Path.keep_component x.
Proof.
  unfold Path.keep_component. rewrite lower_truthy. f_equal. f_equal.
  apply bool_decide_ext, lower_is_dot.
Qed.

Lemma lower_filter_keep l :
  List.filter Path.keep_component (List.map lower l)
  = List.map lower (List.filter Path.keep_component l).
Proof.
  induction l as [|x l IH]; simpl; [reflexivity|].
  rewrite lower_keep_component.
  destruct (Path.keep_component x); simpl; rewrite IH; reflexivity.
Qed.

Lemma lower_last l : List.last (List.map lower l) [] = lower (List.last l []).
Proof.
  induction l as [|x [|y l] IH]; try reflexivity. exact IH.
Qed.

Lemma lower_rfind_dot s : rfind DOT (lower s) = rfind DOT s.
Proof.
  induction s as [|c r IH]; simpl; [reflexivity|].
  fold (lower r). rewrite IH, lower_cp_eqb_dot. reflexivity.
Qed.

Lemma lower_drop i s : drop i (lower s) = lower (drop i s).
Proof.
  revert s. induction i as [|i IH]; intros [|c r]; try reflexivity. apply IH.
Qed.

Lemma lower_splitroot s :
  Path.splitroot (lower s)
  = (fst (Path.splitroot s), lower (snd (Path.splitroot s))).
Proof.
  destruct s as [|c r]; [reflexivity|]. unfold Path.splitroot.
  change (lower (c :: r)) with (lower_cp c :: lower r). cbv beta iota.
  rewrite lower_cp_eqb_slash. destruct (c =? SLASH); [|reflexivity].
  change (lower_cp c :: lower r) with (lower (c :: r)).
  rewrite lower_lstrip_slash, !lower_length.
  destruct (_ =? 2)%nat; reflexivity.
Qed.

Lemma lower_suffix s :
  Path.suffix (Path.of_str (lower s)) = lower (Path.suffix (Path.of_str s)).
Proof.
  unfold Path.of_str. rewrite lower_splitroot.
  destruct (Path.splitroot s) as [r rel]. simpl.
  unfold Path.suffix, Path.name. simpl.
  rewrite lower_split_on_slash, lower_filter_keep, lower_last.
  rewrite lower_rfind_dot, lower_length.
  destruct (rfind DOT _) as [i|]; [|reflexivity].
  destruct (_ && _); [apply lower_drop|reflexivity].
Qed.

Lemma lower_candidate s : candidate (lower s) = candidate s.
Proof.
  unfold candidate, is_image_blob.
  rewrite lower_endswith_slash, lower_suffix, lower_idemp. reflexivity.
Qed.

Example candidate_samples :
  List.map candidate
    [py "jane/portrait.JPG"; py "jane/a.b.Jpeg"; py "jane/x.webp";
     py "jane/"; py "jane/old.jpg/"; py "jane/notes.txt"; py "jane/.gif";
     py "jane/png"; py "jane/x.jpg.bak"]
  = [true; true; true; false; false; false; false; false; false].
Proof. vm_compute. reflexivity. Qed.

(** ** The size of a thumbnail *)

(** Whichever of floor and ceiling of [a / b] is picked, the result, at
    least 1, is within one of the quotient and below every bound of it. *)
Lemma round_pick a b (t : bool) :
  0 < a -> 0 < b ->
  let flo := a / b in
  let cei := if a mod b =? 0 then flo else flo + 1 in
  let v := N.max (if t then flo else cei) 1 in
  1 <= v
  /\ Image.absdiff (v * b) a < b
  /\ (forall m, a <= m * b -> v <= m)
  /\ (forall m, a < m * b -> v <= m).
Proof.
  intros Ha Hb flo cei v.
  pose proof (N.div_mod a b ltac:(lia)) as Hdm.
  pose proof (N.mod_lt a b ltac:(lia)) as Hr.
  fold flo in Hdm.
  assert (Hc : (if t then flo else cei) = flo
               \/ ((if t then flo else cei) = flo + 1 /\ a mod b <> 0)).
  { subst cei. destruct t; [auto|].
    destruct (N.eqb_spec (a mod b) 0); auto. }
  subst v. set (c := if t then flo else cei) in *.
  clearbody c. clear cei. clearbody flo.
  set (r := a mod b) in *. clearbody r.
  assert (Hup : forall m, a <= m * b -> 1 <= m /\ c <= m).
  { intros m Hm. split; [nia|].
    destruct Hc as [->|[-> Hr0]]; [nia|].
    destruct (N.le_gt_cases (flo + 1) m); [assumption|nia]. }
  unfold Image.absdiff.
  destruct (N.max_spec c 1) as [[Hlt ->]|[Hge ->]].
  - split; [lia|]. split.
    + assert (c = 0) as -> by lia. assert (flo = 0) as -> by lia.
      destruct (N.leb_spec (1 * b) a); lia.
    + split; intros m Hm; destruct (Hup m ltac:(lia)); lia.
  - split; [lia|]. split.
    + destruct Hc as [->|[-> Hr0]];
        match goal with |- context [?x <=? ?y] =>
          destruct (N.leb_spec x y) end; nia.
    + split; intros m Hm; destruct (Hup m ltac:(lia)); lia.
Qed.

Lemma round_aspect_x_spec w h y :
  0 < w -> 0 < h -> 0 < y ->
  let v := Image.round_aspect_x w h y in
  1 <= v
  /\ Image.absdiff (v * h) (y * w) < h
  /\ (forall m, y * w <= m * h -> v <= m)
  /\ (forall m, y * w < m * h -> v <= m).
Proof.
  intros Hw Hh Hy. unfold Image.round_aspect_x. cbv zeta.
  destruct (PrimFloat.ltb _ _).
  - exact (round_pick (y * w) h false ltac:(nia) Hh).
  - exact (round_pick (y * w) h true ltac:(nia) Hh).
Qed.

Lemma round_aspect_y_spec w h x :
  0 < w -> 0 < h -> 0 < x ->
  let v := Image.round_aspect_y w h x in
  1 <= v
  /\ Image.absdiff (v * w) (x * h) < w
  /\ (forall m, x * h <= m * w -> v <= m)
  /\ (forall m, x * h < m * w -> v <= m).
Proof.
  intros Hw Hh Hx. unfold Image.round_aspect_y. cbv zeta.
  destruct (PrimFloat.ltb _ _).
  - exact (round_pick (x * h) w false ltac:(nia) Hw).
  - exact (round_pick (x * h) w true ltac:(nia) Hw).
Qed.

(** On an image and a box with no empty side [thumbnail] never raises, and
    the result is the image scaled into the box. *)
Lemma thumbnail_scaled box im :
  0 < fst box -> 0 < snd box ->
  0 < Image.width im -> 0 < Image.height im ->
  exists th,
    Image.thumbnail box im = Ok th
    /\ scaled_into box im th
    /\ Image.mode th = Image.mode im
    /\ Image.pending th = Image.pending im.
Proof.
  destruct box as [x y]. simpl. intros Hx Hy Hw Hh.
  unfold Image.thumbnail, Image.preserve_aspect_ratio.
  set (w := Image.width im) in *. set (h := Image.height im) in *.
  destruct (N.leb_spec w x) as [Hwx|Hwx]; simpl.
  - destruct (N.leb_spec h y) as [Hhy|Hhy]; simpl.
    + exists im. unfold scaled_into. simpl. fold w h.
      repeat split; auto; lia.
    + destruct (N.eqb_spec h 0) as [?|_]; [lia|].
      assert (w * y <= x * h) as Hb by nia.
      destruct (N.leb_spec (w * y) (x * h)); [|lia].
      destruct (round_aspect_x_spec w h y Hw Hh Hy) as (V1 & V2 & V3 & V4).
      eexists. split; [reflexivity|]. unfold scaled_into. simpl. fold w h.
      repeat split;
        first [lia | apply V3; lia | apply V4; nia | right; left; auto].
  - destruct (N.eqb_spec h 0) as [?|_]; [lia|].
    destruct (N.leb_spec (w * y) (x * h)) as [Hb|Hb].
    + assert (y < h) as Hyh by nia.
      destruct (round_aspect_x_spec w h y Hw Hh Hy) as (V1 & V2 & V3 & V4).
      eexists. split; [reflexivity|]. unfold scaled_into. simpl. fold w h.
      repeat split;
        first [lia | apply V3; lia | apply V4; nia | right; left; auto].
    + destruct (round_aspect_y_spec w h x Hw Hh Hx) as (V1 & V2 & V3 & V4).
      eexists. split; [reflexivity|]. unfold scaled_into. simpl. fold w h.
      repeat split;
        first [lia | apply V4; lia | apply V4; nia | right; right; auto].
Qed.

(** ** Writing the thumbnails *)

Example thumbnail_rounding_samples :
  List.map (fun '(box, w, h) => Image.preserve_aspect_ratio box w h)
    [((512, 512), 1000, 667); ((256, 256), 1000, 667);
     ((512, 512), 1408, 15); ((256, 256), 766, 573);
     ((512, 512), 513, 257); ((512, 512), 300, 400)]
  = [Ok (Some (512, 342)); Ok (Some (256, 171)); Ok (Some (512, 6));
     Ok (Some (256, 192)); Ok (Some (512, 256)); Ok None].
Proof. vm_compute. reflexivity. Qed.

Lemma thumbnail_keeps_mode box im th :
  Image.thumbnail box im = Ok th ->
  Image.mode th = Image.mode im /\ Image.pending th = Image.pending im.
Proof.
  unfold Image.thumbnail.
  destruct (Image.preserve_aspect_ratio _ _ _) as [[[x y]|]|e];
    [| |discriminate]; intros [= <-]; auto.
Qed.

Lemma thumbnail_raises box im e :
  Image.thumbnail box im = Raise e -> e = ZeroDivisionError.
Proof.
  unfold Image.thumbnail, Image.preserve_aspect_ratio. destruct box as [x y].
  destruct (_ && _); [discriminate|].
  destruct (_ =? 0); [intros [= <-]; reflexivity|].
  destruct (_ <=? _); discriminate.
Qed.

Lemma check_save_jpeg_rgb th :
  Image.mode th = Image.RGB -> 1 <= Image.width th -> 1 <= Image.height th ->
  Image.check_save_jpeg th = Ok tt.
Proof.
  intros Hm Hw Hh. unfold Image.check_save_jpeg. rewrite Hm. simpl.
  destruct (N.eqb_spec (Image.width th) 0); [lia|].
  destruct (N.eqb_spec (Image.height th) 0); [lia|]. reflexivity.
Qed.

Lemma check_save_jpeg_rgba th :
  Image.mode th = Image.RGBA ->
  Image.check_save_jpeg th
  = Raise (OSError (py "cannot write mode RGBA as JPEG")).
Proof. intros Hm. unfold Image.check_save_jpeg. rewrite Hm. reflexivity. Qed.

(** What one [save_thumbnail] does: it asks for the directory, then either
    raises (undecodable pixel data, no height to divide by, or an image the
    writer refuses) having written nothing, or writes the thumbnail of the
    image, which the writer accepted. *)
Lemma save_thumbnail_cases image destination box st :
  (exists e,
     save_thumbnail image destination box st
     = (Raise e, after st [Mkdir (Path.parent destination)])
     /\ (Image.pending image = Some e
         \/ (Image.pending image = None
             /\ Image.thumbnail box image = Raise e)
         \/ (exists th, Image.pending image = None
                        /\ Image.thumbnail box image = Ok th
                        /\ Image.check_save_jpeg th = Raise e)))
  \/ (exists th,
        save_thumbnail image destination box st
        = (Ok tt, after st [Mkdir (Path.parent destination);
                            WriteJpeg destination th])
        /\ Image.pending image = None
        /\ Image.thumbnail box image = Ok th
        /\ Image.check_save_jpeg th = Ok tt).
Proof.
  unfold save_thumbnail. rewrite !bind_run, emit_run.
  unfold lift, Image.copy, Image.load.
  destruct (Image.pending image) as [e|] eqn:Hp; [left; eauto|].
  rewrite bind_run.
  destruct (Image.thumbnail box image) as [th|e] eqn:Ht; [|left; eauto 6].
  rewrite bind_run.
  destruct (Image.check_save_jpeg th) as [[]|e] eqn:Hc; [|left; eauto 8].
  rewrite bind_run, emit_run, after_after. right. eauto.
Qed.

Lemma save_thumbnail_rgb image destination box st :
  Image.mode image = Image.RGB -> Image.pending image = None ->
  0 < Image.width image -> 0 < Image.height image ->
  0 < fst box -> 0 < snd box ->
  exists th,
    save_thumbnail image destination box st
    = (Ok tt, after st [Mkdir (Path.parent destination);
                        WriteJpeg destination th])
    /\ scaled_into box image th
    /\ Image.mode th = Image.RGB
    /\ Image.thumbnail box image = Ok th
    /\ Image.check_save_jpeg th = Ok tt.
Proof.
  intros Hm Hp Hw Hh Hx Hy.
  destruct (thumbnail_scaled box image Hx Hy Hw Hh) as (th & Ht & Hs & Hm' & _).
  assert (Image.check_save_jpeg th = Ok tt) as Hc.
  { destruct Hs as ((Hw1 & _) & (Hh1 & _) & _).
    apply check_save_jpeg_rgb; auto. congruence. }
  exists th.
  destruct (save_thumbnail_cases image destination box st)
    as [(e & _ & [H|[[_ H]|(th' & _ & H1 & H2)]])|(th' & E & _ & H1 & _)];
    try congruence.
  assert (th' = th) as -> by congruence.
  split; [exact E|]. split; [exact Hs|]. split; [congruence|]. auto.
Qed.

Lemma scaled_into_same_size box src src' th :
  Image.width src' = Image.width src ->
  Image.height src' = Image.height src ->
  scaled_into box src' th -> scaled_into box src th.
Proof. unfold scaled_into. intros -> ->. auto. Qed.

(** What [download_image] returns for an opened image whose pixel data
    decode: the image itself in mode RGB or RGBA, else its conversion. *)
Lemma normalised_mode src :
  Image.pending src = None ->
  exists image,
    (if negb (Image.mode_eqb (Image.mode src) Image.RGB
              || Image.mode_eqb (Image.mode src) Image.RGBA)
     then Image.convert_RGB src else Ok src) = Ok image
    /\ Image.mode image
       = (if Image.mode_eqb (Image.mode src) Image.RGBA
          then Image.RGBA else Image.RGB)
    /\ Image.width image = Image.width src
    /\ Image.height image = Image.height src
    /\ Image.pending image = None.
Proof.
  intros Hp. unfold Image.convert_RGB, Image.load. rewrite Hp.
  destruct (Image.mode src) eqn:E; simpl; eexists;
    (split; [reflexivity|]); simpl; auto.
Qed.

Lemma mode_eqb_RGBA m : Image.mode_eqb m Image.RGBA = true <-> m = Image.RGBA.
Proof. destruct m; simpl; split; congruence. Qed.

Section Thumbnails.

Variable w : World.
Variables (bucket_name identifier : str) (output_dir : Path.t).
Variables (listed : list Blob.t) (blob : Blob.t) (data : list N).
Variable src : Image.t.

Hypothesis Hlisted :
  list_blobs w bucket_name (rstrip_slash identifier ++ [SLASH]) = Ok listed.
Hypothesis Hchosen :
  choose_primary_blob
    (List.filter (fun blob => candidate (Blob.name blob)) listed) = Some blob.
Hypothesis Hdownload : download_as_bytes w blob = Ok data.
Hypothesis Hopen : image_open w data = Ok src.
Hypothesis Hdecodes : Image.pending src = None.
Hypothesis Hwidth : 0 < Image.width src.
Hypothesis Hheight : 0 < Image.height src.

(** The common start of a call: listing, choice, download, normalisation. *)
Lemma process_identifier_downloaded st :
  exists image evs,
    process_identifier w bucket_name identifier output_dir st
    = for_each THUMBNAILS (fun spec =>
        let destination :=
          ThumbnailSpec.destination spec (Path.truediv output_dir identifier) in
        save_thumbnail image destination (ThumbnailSpec.size spec) ;;
        log INFO (Saved destination))
        (after st evs)
    /\ writes_of evs = []
    /\ Image.mode image
       = (if Image.mode_eqb (Image.mode src) Image.RGBA
          then Image.RGBA else Image.RGB)
    /\ Image.width image = Image.width src
    /\ Image.height image = Image.height src
    /\ Image.pending image = None.
Proof.
  destruct (normalised_mode src Hdecodes) as (image & Hn & Hrest).
  rewrite (process_identifier_listed _ _ _ _ _ _ Hlisted).
  cbv zeta. rewrite (choose_primary_blob_nonempty _ _ Hchosen), Hchosen.
  cbn [negb]. rewrite bind_run.
  destruct (log_run INFO (Downloading (Blob.name blob) (Blob.size blob)
                            identifier)
              (after st [ListBlobs bucket_name
                           (rstrip_slash identifier ++ [SLASH])]))
    as (evs & -> & Hevs).
  rewrite bind_run, (download_image_opened _ _ _ _ _ Hdownload Hopen), Hn.
  rewrite !after_after.
  exists image. eexists. split; [reflexivity|]. split; [|exact Hrest].
  rewrite !writes_of_app, Hevs. reflexivity.
Qed.

(** When the chosen blob downloads and decodes to an image with no empty
    side that is not in mode RGBA, the call returns normally and the files
    it writes are [cover.jpg] and [profile.jpg] under the output directory
    joined with the identifier, in mode RGB and accepted by the writer: the
    source scaled into 512 by 512 and into 256 by 256. *)
Lemma process_identifier_writes_both :
  Image.mode src <> Image.RGBA ->
  forall st,
    exists st' evs cover profile,
      process_identifier w bucket_name identifier output_dir st = (Ok tt, st')
      /\ trace st' = trace st ++ evs
      /\ writes_of evs
         = [(Path.truediv (Path.truediv output_dir identifier) (py "cover.jpg"),
             cover);
            (Path.truediv (Path.truediv output_dir identifier)
               (py "profile.jpg"), profile)]
      /\ (scaled_into (512, 512) src cover
          /\ scaled_into (256, 256) src profile)
      /\ (Image.mode cover = Image.RGB /\ Image.mode profile = Image.RGB)
      /\ (Image.check_save_jpeg cover = Ok tt
          /\ Image.check_save_jpeg profile = Ok tt).
Proof.
  intros Hmode st.
  destruct (process_identifier_downloaded st)
    as (image & evs & -> & Hevs & Hm & Hw & Hh & Hp).
  assert (Image.mode image = Image.RGB) as Hrgb.
  { rewrite Hm.
    destruct (Image.mode_eqb (Image.mode src) Image.RGBA) eqn:E;
      [|reflexivity].
    apply mode_eqb_RGBA in E. contradiction. }
  assert (0 < Image.width image) as Hw' by (rewrite Hw; exact Hwidth).
  assert (0 < Image.height image) as Hh' by (rewrite Hh; exact Hheight).
  cbn [for_each THUMBNAILS]. cbv zeta. cbn [ThumbnailSpec.size].
  rewrite !bind_run.
  match goal with |- context [save_thumbnail image ?d (512, 512) ?s] =>
    destruct (save_thumbnail_rgb image d (512, 512) s Hrgb Hp Hw' Hh'
                ltac:(reflexivity) ltac:(reflexivity))
      as (cover & -> & Hcover & Mcover & _ & Ccover);
    destruct (log_run INFO (Saved d)
                (after s [Mkdir (Path.parent d); WriteJpeg d cover]))
      as (e1 & -> & He1)
  end.
  rewrite !bind_run.
  match goal with |- context [save_thumbnail image ?d (256, 256) ?s] =>
    destruct (save_thumbnail_rgb image d (256, 256) s Hrgb Hp Hw' Hh'
                ltac:(reflexivity) ltac:(reflexivity))
      as (profile & -> & Hprofile & Mprofile & _ & Cprofile);
    destruct (log_run INFO (Saved d)
                (after s [Mkdir (Path.parent d); WriteJpeg d profile]))
      as (e2 & -> & He2)
  end.
  unfold mret, M_ret. rewrite !after_after.
  eexists. eexists. exists cover, profile.
  split; [reflexivity|]. split; [reflexivity|].
  split; [rewrite !writes_of_app, Hevs, He1, He2; reflexivity|].
  split; [split; eapply scaled_into_same_size; eassumption|auto].
Qed.

(** C5: a source that downloads and decodes, with no empty side, in a mode
    other than RGB and RGBA is converted to RGB by [download_image], with
    its size unchanged, before anything is encoded; the JPEG writer then
    accepts both thumbnails made of it, which are in mode RGB, and both
    files are written. *)
Theorem other_modes_are_converted_and_encoded :
  Image.mode src <> Image.RGB -> Image.mode src <> Image.RGBA ->
  forall st,
    (exists image,
       download_image w blob st = (Ok image, after st [Download blob])
       /\ Image.mode image = Image.RGB
       /\ Image.width image = Image.width src
       /\ Image.height image = Image.height src)
    /\ exists st' evs cover profile,
         process_identifier w bucket_name identifier output_dir st
         = (Ok tt, st')
         /\ trace st' = trace st ++ evs
         /\ writes_of evs
            = [(Path.truediv (Path.truediv output_dir identifier)
                  (py "cover.jpg"), cover);
               (Path.truediv (Path.truediv output_dir identifier)
                  (py "profile.jpg"), profile)]
         /\ (Image.mode cover = Image.RGB /\ Image.mode profile = Image.RGB)
         /\ (Image.check_save_jpeg cover = Ok tt
             /\ Image.check_save_jpeg profile = Ok tt).
Proof.
  intros Hrgb Hrgba st. split.
  - destruct (normalised_mode src Hdecodes) as (image & Hn & Hm & Hw & Hh & _).
    exists image. rewrite (download_image_opened _ _ _ _ _ Hdownload Hopen), Hn.
    split; [reflexivity|]. split; [|auto]. rewrite Hm.
    destruct (Image.mode_eqb (Image.mode src) Image.RGBA) eqn:E;
      [|reflexivity].
    apply mode_eqb_RGBA in E. contradiction.
  - destruct (process_identifier_writes_both Hrgba st)
      as (st' & evs & cover & profile & E & T & W & _ & M & C).
    exists st', evs, cover, profile. auto.
Qed.

(** C1: the claim fails on a source in mode RGBA.  Such a source downloads
    and decodes, [download_image] leaves it in mode RGBA, and the first
    [save_thumbnail] raises (the JPEG writer refuses the mode; an image
    without height cannot even be scaled): the call ends in that exception
    and no file at all is written for the identifier, where the claim has
    two. *)
Theorem rgba_source_leaves_no_thumbnail :
  Image.mode src = Image.RGBA ->
  forall st,
    exists e st' evs,
      process_identifier w bucket_name identifier output_dir st
      = (Raise e, st')
      /\ (e = OSError (py "cannot write mode RGBA as JPEG")
          \/ e = ZeroDivisionError)
      /\ trace st' = trace st ++ evs
      /\ writes_of evs = [].
Proof.
  intros Hmode st.
  destruct (process_identifier_downloaded st)
    as (image & evs & -> & Hevs & Hm & _ & _ & Hp).
  assert (Image.mode image = Image.RGBA) as Hrgba.
  { rewrite Hm, Hmode. reflexivity. }
  cbn [for_each THUMBNAILS]. cbv zeta. cbn [ThumbnailSpec.size].
  rewrite !bind_run.
  match goal with |- context [save_thumbnail image ?d (512, 512) ?s] =>
    destruct (save_thumbnail_cases image d (512, 512) s)
      as [(e & -> & He)|(th & _ & _ & Ht & Hc)]
  end.
  - exists e. eexists. eexists. rewrite !after_after.
    split; [reflexivity|]. split.
    + destruct He as [H|[[_ H]|(th & _ & Ht & Hc)]].
      * congruence.
      * right. exact (thumbnail_raises _ _ _ H).
      * left. destruct (thumbnail_keeps_mode _ _ _ Ht) as [Hmt _].
        rewrite check_save_jpeg_rgba in Hc by congruence. congruence.
    + split; [reflexivity|]. rewrite !writes_of_app, Hevs. reflexivity.
  - destruct (thumbnail_keeps_mode _ _ _ Ht) as [Hmt _].
    rewrite check_save_jpeg_rgba in Hc by congruence. discriminate.
Qed.

End Thumbnails.

Lemma other_modes_are_converted_and_encoded_witness :
  (exists image,
     download_image sample_world (mk_blob "pal/logo.gif" (Some 3))
       initial_state
     = (Ok image,
        after initial_state [Download (mk_blob "pal/logo.gif" (Some 3))])
     /\ Image.mode image = Image.RGB
     /\ Image.width image = Image.width (mk_image Image.P 120 80)
     /\ Image.height image = Image.height (mk_image Image.P 120 80))
  /\ exists st' evs cover profile,
       process_identifier sample_world (py "afaculty") (py "pal")
         (Path.of_str (py "portraits")) initial_state = (Ok tt, st')
       /\ trace st' = trace initial_state ++ evs
       /\ writes_of evs
          = [(Path.truediv
                (Path.truediv (Path.of_str (py "portraits")) (py "pal"))
                (py "cover.jpg"), cover);
             (Path.truediv
                (Path.truediv (Path.of_str (py "portraits")) (py "pal"))
                (py "profile.jpg"), profile)]
       /\ (Image.mode cover = Image.RGB /\ Image.mode profile = Image.RGB)
       /\ (Image.check_save_jpeg cover = Ok tt
           /\ Image.check_save_jpeg profile = Ok tt).
Proof.
  apply (other_modes_are_converted_and_encoded sample_world (py "afaculty")
           (py "pal") (Path.of_str (py "portraits"))
           [mk_blob "pal/logo.gif" (Some 3)] (mk_blob "pal/logo.gif" (Some 3))
           (py "pal/logo.gif") (mk_image Image.P 120 80));
    try reflexivity; discriminate.
Defined.

Lemma rgba_source_leaves_no_thumbnail_witness :
  exists e st' evs,
    process_identifier sample_world (py "afaculty") (py "lee")
      (Path.of_str (py "portraits")) initial_state
    = (Raise e, st')
    /\ (e = OSError (py "cannot write mode RGBA as JPEG")
        \/ e = ZeroDivisionError)
    /\ trace st' = trace initial_state ++ evs
    /\ writes_of evs = [].
Proof.
  apply (rgba_source_leaves_no_thumbnail sample_world (py "afaculty")
           (py "lee") (Path.of_str (py "portraits"))
           [mk_blob "lee/face.png" (Some 7)] (mk_blob "lee/face.png" (Some 7))
           (py "lee/face.png") (mk_image Image.RGBA 300 400));
    reflexivity.
Defined.

Example thumbnails_of_jane :
  writes_of
    (trace (snd (process_identifier sample_world (py "afaculty") (py "jane")
                   (Path.of_str (py "portraits")) initial_state)))
  = [(Path.of_str (py "portraits/jane/cover.jpg"),
      mk_image Image.RGB 512 342);
     (Path.of_str (py "portraits/jane/profile.jpg"),
      mk_image Image.RGB 256 171)].
Proof. vm_compute. reflexivity. Qed.

Example rgba_source_run :
  run sample_world (sample_args ["lee"]%string None)
  = (1%Z,
     [ClientCreated;
      ListBlobs (py "afaculty") (py "lee/");
      Log INFO (Downloading (py "lee/face.png") (Some 7) (py "lee"));
      Download (mk_blob "lee/face.png" (Some 7));
      Mkdir (Path.of_str (py "portraits/lee"))]).
Proof. vm_compute. reflexivity. Qed.

(** ** The whole run *)

Lemma main_resolved w args lines ids st :
  file_lines w args = Ok lines ->
  resolves (lines ++ identifiers args) ids ->
  ids <> [] ->
  new_client w = Ok tt ->
  main w args st
  = (let '(r, st') :=
       for_each ids
         (fun id => process_identifier w (bucket args) id (output args))
         (after {| log_level := if verbose args then DEBUG else INFO;
                   trace := trace st |} [ClientCreated]) in
     (match r with Ok _ => Ok 0%Z | Raise e => Raise e end, st')).
Proof.
  intros Hf Hres Hne Hc.
  unfold main. rewrite bind_run. unfold initialize_logging.
  rewrite bind_run, (build_identifier_list_run w args lines _ Hf).
  rewrite (resolves_unique _ _ _
             (sorted_gathered_resolves lines (identifiers args)) Hres).
  destruct ids as [|i ids']; [congruence|].
  rewrite bind_run. unfold storage_Client. rewrite bind_run.
  unfold lift. rewrite Hc, emit_run, bind_run.
  destruct (for_each _ _ _) as [[[]|e] st']; reflexivity.
Qed.

(** A failure at one identifier ends the run with a non-zero status, in the
    state reached inside that identifier's call. *)
Lemma failure_ends_run w args lines pre identifier post st1 listed blob e :
  file_lines w args = Ok lines ->
  resolves (lines ++ identifiers args) (pre ++ identifier :: post) ->
  new_client w = Ok tt ->
  for_each pre
    (fun id => process_identifier w (bucket args) id (output args))
    (after {| log_level := if verbose args then DEBUG else INFO;
              trace := [] |} [ClientCreated])
  = (Ok tt, st1) ->
  list_blobs w (bucket args) (rstrip_slash identifier ++ [SLASH]) = Ok listed ->
  choose_primary_blob
    (List.filter (fun blob => candidate (Blob.name blob)) listed) = Some blob ->
  download_as_bytes w blob = Raise e
  \/ (exists data, download_as_bytes w blob = Ok data
                   /\ image_open w data = Raise e)
  \/ (exists data im, download_as_bytes w blob = Ok data
                      /\ image_open w data = Ok im
                      /\ Image.pending im = Some e) ->
  run w args
  = (1%Z,
     trace (snd (process_identifier w (bucket args) identifier (output args)
                   st1))).
Proof.
  intros Hf Hres Hc Hpre Hl Hch Hfail.
  unfold run.
  rewrite (main_resolved w args lines _ initial_state Hf Hres
             ltac:(destruct pre; discriminate) Hc).
  simpl trace. rewrite for_each_app, Hpre. simpl for_each. rewrite bind_run.
  pose proof (process_identifier_raises w (bucket args) (output args)
                identifier st1 listed blob e Hl Hch Hfail) as Hr.
  destruct (process_identifier w (bucket args) identifier (output args) st1)
    as [r st2].
  simpl in Hr. subst r. reflexivity.
Qed.

(** * Further properties of the script *)

(** ** Stripping *)

Lemma lstrip_by_split p s :
  exists ws, s = ws ++ lstrip_by p s /\ Forall (fun c => p c = true) ws.
Proof.
  induction s as [|c r (ws & E & F)]; simpl.
  - exists []. auto.
  - destruct (p c) eqn:Hc.
    + exists (c :: ws). simpl. rewrite <- E. auto.
    + exists []. auto.
Qed.

Lemma lstrip_by_head p s c r : lstrip_by p s = c :: r -> p c = false.
Proof.
  induction s as [|x s IH]; simpl; [discriminate|].
  destruct (p x) eqn:Hx; [exact IH|]. intros [= -> _]. exact Hx.
Qed.

Lemma lstrip_by_fixed p s :
  match s with [] => True | c :: _ => p c = false end -> lstrip_by p s = s.
Proof. destruct s as [|c r]; simpl; [reflexivity|]. intros ->. reflexivity. Qed.

(** A stripped string is either empty or starts and ends with a code point
    that is not white space. *)
Lemma strip_ends s :
  match strip s with
  | [] => True
  | c :: _ => isspace c = false
  end
  /\ match rev (strip s) with
     | [] => True
     | c :: _ => isspace c = false
     end.
Proof.
  unfold strip, rstrip_by.
  set (a := lstrip_by isspace s).
  set (b := lstrip_by isspace (rev a)).
  rewrite rev_involutive. split.
  - destruct (lstrip_by_split isspace (rev a)) as (ws & E & _). fold b in E.
    assert (a = rev b ++ rev ws) as Ea.
    { rewrite <- (rev_involutive a), E, rev_app_distr. reflexivity. }
    destruct (rev b) as [|c r] eqn:Eb; [exact Logic.I|].
    simpl in Ea. apply (lstrip_by_head isspace s c (r ++ rev ws)). exact Ea.
  - destruct b as [|c r] eqn:Eb; [exact Logic.I|].
    apply (lstrip_by_head isspace (rev a) c r). exact Eb.
Qed.

Lemma strip_idemp s : strip (strip s) = strip s.
Proof.
  destruct (strip_ends s) as [H1 H2].
  set (y := strip s) in *. unfold strip, rstrip_by.
  rewrite (lstrip_by_fixed isspace y H1).
  rewrite (lstrip_by_fixed isspace (rev y) H2). apply rev_involutive.
Qed.

(** ** The resolved identifiers *)

Lemma build_identifier_list_ok_inv w args st l st' :
  build_identifier_list w args st = (Ok l, st') ->
  exists lines,
    file_lines w args = Ok lines
    /\ l = sorted (py_set (gathered lines (identifiers args)))
    /\ l <> [] /\ st' = st.
Proof.
  destruct (file_lines w args) as [lines|e] eqn:Hf.
  - rewrite (build_identifier_list_run w args lines st Hf).
    destruct (sorted _) as [|x r] eqn:Es; [discriminate|].
    intros [= <- <-]. exists lines. rewrite Es.
    repeat split; auto.
  - unfold file_lines in Hf. unfold build_identifier_list.
    destruct (from_file args) as [path|]; [|discriminate Hf].
    rewrite bind_run, bind_run. unfold lift.
    destruct (read_text w path); [discriminate Hf|discriminate].
Qed.

Lemma nonempty_stripped_fixed (l : list str) :
  (forall x, x ∈ l -> x <> [] /\ strip x = x) -> nonempty_stripped l = l.
Proof.
  unfold nonempty_stripped. induction l as [|x l IH]; intros H; [reflexivity|].
  destruct (H x (list_elem_of_here _ _)) as [Hne Hs].
  simpl. rewrite Hs. destruct x as [|c r]; [congruence|]. simpl.
  fold (strip (c :: r)). rewrite Hs. f_equal.
  apply IH. intros y Hy. apply H, list_elem_of_further, Hy.
Qed.

Lemma resolved_identifiers_stripped w args st l st' :
  build_identifier_list w args st = (Ok l, st') ->
  l <> [] /\ NoDup l
  /\ forall x, x ∈ l -> x <> [] /\ exists e, strip e = x.
Proof.
  intros E.
  apply build_identifier_list_ok_inv in E as (lines & _ & -> & Hne & _).
  split; [exact Hne|]. split.
  - apply str_lt_sorted_NoDup, sorted_py_set_strict.
  - intros x Hx. apply elem_of_sorted_py_set, elem_of_gathered in Hx
      as (Hx & e & _ & <-).
    split; [exact Hx|]. exists e. reflexivity.
Qed.

(** Whatever the inputs, a resolved identifier list is not empty, has no
    repetition, and each identifier in it is non-empty and neither starts
    nor ends with a white-space character. *)
Theorem resolved_identifiers_are_clean :
  forall w args st,
    match fst (build_identifier_list w args st) with
    | Ok l =>
        l <> [] /\ NoDup l
        /\ forall x, x ∈ l ->
             x <> []
             /\ (forall c r, x = c :: r -> isspace c = false)
             /\ (forall r c, x = r ++ [c] -> isspace c = false)
    | Raise _ => True
    end.
Proof.
  intros w args st.
  destruct (build_identifier_list w args st) as [[l|e] st'] eqn:E;
    [|exact Logic.I]. simpl.
  destruct (resolved_identifiers_stripped w args st l st' E)
    as (Hne & Hnd & Hclean).
  split; [exact Hne|]. split; [exact Hnd|].
  intros x Hx. destruct (Hclean x Hx) as (Hx0 & e & <-).
  split; [exact Hx0|]. destruct (strip_ends e) as [H1 H2].
  split.
  - intros c r Hc. rewrite Hc in H1. exact H1.
  - intros r c Hc. rewrite Hc, rev_app_distr in H2. exact H2.
Qed.

(** Resolving is idempotent: a resolved list passed back as the [--id]
    values, without a file, resolves to itself. *)
Theorem build_identifier_list_idempotent :
  forall w args st l st',
    build_identifier_list w args st = (Ok l, st') ->
    forall w' bucket' output' verbose' st0,
      build_identifier_list w'
        {| bucket := bucket'; identifiers := l; from_file := None;
           output := output'; verbose := verbose' |} st0
      = (Ok l, st0).
Proof.
  intros w args st l st' E w' bucket' output' verbose' st0.
  destruct (resolved_identifiers_stripped w args st l st' E)
    as (Hne & _ & Hstripped).
  assert (forall x, x ∈ l -> x <> [] /\ strip x = x) as Hclean.
  { intros x Hx. destruct (Hstripped x Hx) as (Hx0 & e & <-).
    split; [exact Hx0|apply strip_idemp]. }
  apply build_identifier_list_ok_inv in E as (lines & _ & El & _ & _).
  rewrite (build_identifier_list_run w'
             {| bucket := bucket'; identifiers := l; from_file := None;
                output := output'; verbose := verbose' |} [] st0 eq_refl).
  simpl identifiers.
  assert (gathered [] l = l) as ->.
  { unfold gathered. simpl. destruct l; [congruence|].
    simpl truthy. cbv iota. apply nonempty_stripped_fixed, Hclean. }
  assert (sorted (py_set l) = l) as ->.
  { apply str_lt_sorted_unique.
    - apply sorted_py_set_strict.
    - rewrite El. apply sorted_py_set_strict.
    - intros x. apply elem_of_sorted_py_set. }
  destruct l; [congruence|reflexivity].
Qed.

Lemma build_identifier_list_idempotent_witness :
  build_identifier_list sample_world
    {| bucket := py "other"; identifiers := [py "jane"; py "kim"; py "lee"];
       from_file := None; output := Path.of_str (py "out");
       verbose := true |} initial_state
  = (Ok [py "jane"; py "kim"; py "lee"], initial_state).
Proof.
  apply (build_identifier_list_idempotent sample_world
           (sample_args [" lee"; "jane"]%string (Some "ids.txt"%string))
           initial_state [py "jane"; py "kim"; py "lee"] initial_state).
  vm_compute. reflexivity.
Defined.

(** ** The identifier file *)

Lemma nonempty_stripped_cons x (l : list str) :
  nonempty_stripped (x :: l)
  = (if truthy (strip x) then [strip x] else []) ++ nonempty_stripped l.
Proof.
  unfold nonempty_stripped. simpl. destruct (truthy (strip x)); reflexivity.
Qed.

Lemma splitlines_from_final_newline n :
  forall s cur, (length s <= n)%nat ->
    nonempty_stripped (splitlines_from cur (s ++ [10]))
    = nonempty_stripped (splitlines_from cur s).
Proof.
  induction n as [|n IH]; intros s cur Hn.
  - destruct s; [|simpl in Hn; lia]. simpl.
    destruct cur; reflexivity.
  - destruct s as [|c r].
    + simpl. destruct cur; reflexivity.
    + simpl in Hn. cbn [app splitlines_from].
      destruct (is_linebreak c).
      * rewrite !nonempty_stripped_cons. f_equal.
        destruct r as [|c' r'].
        { simpl. destruct (c =? 13); reflexivity. }
        simpl in Hn. cbn [app].
        destruct ((c =? 13) && (c' =? 10)).
        { apply IH. lia. }
        { apply (IH (c' :: r')). simpl. lia. }
      * apply IH. lia.
Qed.

(** A line feed added at the end of the identifier file changes nothing in
    what is resolved. *)
Theorem final_newline_of_file_is_ignored :
  forall w w' args path text st,
    from_file args = Some path ->
    read_text w path = Ok text ->
    read_text w' path = Ok (text ++ [10]) ->
    build_identifier_list w' args st = build_identifier_list w args st.
Proof.
  intros w w' args path text st Hp Hr Hr'.
  assert (file_lines w args = Ok (splitlines text)) as Hf
    by (unfold file_lines; rewrite Hp, Hr; reflexivity).
  assert (file_lines w' args = Ok (splitlines (text ++ [10]))) as Hf'
    by (unfold file_lines; rewrite Hp, Hr'; reflexivity).
  rewrite (build_identifier_list_run _ _ _ st Hf).
  rewrite (build_identifier_list_run _ _ _ st Hf').
  unfold gathered, splitlines.
  rewrite (splitlines_from_final_newline (length text) text [] (le_n _)).
  reflexivity.
Qed.

Lemma final_newline_of_file_is_ignored_witness :
  build_identifier_list
    {| read_text := fun _ =>
         Ok ((py " kim" ++ [10] ++ py "jane  " ++ [13; 10; 10] ++ py "jane")
             ++ [10]);
       new_client := Ok tt;
       list_blobs := fun _ prefix => Ok (sample_listing prefix);
       download_as_bytes := sample_download;
       image_open := sample_open |}
    (sample_args [] (Some "ids.txt"%string)) initial_state
  = build_identifier_list sample_world
      (sample_args [] (Some "ids.txt"%string)) initial_state.
Proof.
  apply (final_newline_of_file_is_ignored sample_world _
           (sample_args [] (Some "ids.txt"%string))
           (Path.of_str (py "ids.txt"))
           (py " kim" ++ [10] ++ py "jane  " ++ [13; 10; 10] ++ py "jane"));
    reflexivity.
Defined.

(** ** Failures before the loop *)

(** When the identifier file cannot be read, the exception ends the run
    at once: status 1, and neither a client nor any request was made. *)
Theorem unreadable_file_ends_run :
  forall w args path e st,
    from_file args = Some path ->
    read_text w path = Raise e ->
    main w args st
    = (Raise e, {| log_level := if verbose args then DEBUG else INFO;
                   trace := trace st |})
    /\ run w args = (1%Z, []).
Proof.
  intros w args path e st Hp Hr.
  assert (forall s, main w args s
            = (Raise e, {| log_level := if verbose args then DEBUG else INFO;
                           trace := trace s |})) as Hmain.
  { intros s. unfold main. rewrite bind_run. unfold initialize_logging.
    rewrite bind_run. unfold build_identifier_list. rewrite Hp.
    rewrite !bind_run. unfold lift. rewrite Hr. reflexivity. }
  split; [apply Hmain|]. unfold run. rewrite Hmain. reflexivity.
Qed.

Lemma unreadable_file_ends_run_witness :
  run {| read_text := fun _ => Raise (OSError (py "No such file"));
         new_client := Ok tt;
         list_blobs := fun _ prefix => Ok (sample_listing prefix);
         download_as_bytes := sample_download;
         image_open := sample_open |}
      (sample_args ["jane"]%string (Some "ids.txt"%string))
  = (1%Z, []).
Proof.
  apply (unreadable_file_ends_run _
           (sample_args ["jane"]%string (Some "ids.txt"%string))
           (Path.of_str (py "ids.txt")) (OSError (py "No such file"))
           initial_state); reflexivity.
Defined.

Lemma sorted_nonempty_when_some_entry lines ids e :
  e ∈ lines ++ ids -> strip e <> [] ->
  sorted (py_set (gathered lines ids)) <> [].
Proof.
  intros He Hs Hnil.
  assert (strip e ∈ sorted (py_set (gathered lines ids))) as Hin.
  { apply elem_of_sorted_py_set, elem_of_gathered. eauto. }
  rewrite Hnil in Hin. apply elem_of_nil in Hin. exact Hin.
Qed.

(** When identifiers are resolved but the client cannot be constructed, the
    exception ends the run before any listing: status 1, empty trace. *)
Theorem client_failure_ends_run :
  forall w args lines entry e st,
    file_lines w args = Ok lines ->
    entry ∈ lines ++ identifiers args ->
    strip entry <> [] ->
    new_client w = Raise e ->
    main w args st
    = (Raise e, {| log_level := if verbose args then DEBUG else INFO;
                   trace := trace st |})
    /\ run w args = (1%Z, []).
Proof.
  intros w args lines entry e st Hf He Hs Hc.
  assert (forall s, main w args s
            = (Raise e, {| log_level := if verbose args then DEBUG else INFO;
                           trace := trace s |})) as Hmain.
  { intros s. unfold main. rewrite bind_run. unfold initialize_logging.
    rewrite bind_run, (build_identifier_list_run w args lines _ Hf).
    pose proof (sorted_nonempty_when_some_entry _ _ _ He Hs) as Hne.
    destruct (sorted _) as [|x r]; [congruence|].
    rewrite bind_run. unfold storage_Client. rewrite bind_run.
    unfold lift. rewrite Hc. reflexivity. }
  split; [apply Hmain|]. unfold run. rewrite Hmain. reflexivity.
Qed.

Lemma client_failure_ends_run_witness :
  run {| read_text := read_text sample_world;
         new_client := Raise (ExternalError (py "no credentials"));
         list_blobs := fun _ prefix => Ok (sample_listing prefix);
         download_as_bytes := sample_download;
         image_open := sample_open |}
      (sample_args ["jane"]%string None)
  = (1%Z, []).
Proof.
  apply (client_failure_ends_run _ (sample_args ["jane"]%string None) []
           (py "jane") (ExternalError (py "no credentials")) initial_state).
  - reflexivity.
  - apply list_elem_of_here.
  - discriminate.
  - reflexivity.
Defined.

(** When the listing of an identifier's prefix raises, the call ends in that
    exception with the listing request as its only effect. *)
Theorem listing_failure_ends_call :
  forall w bucket_name identifier output_dir e st,
    list_blobs w bucket_name (rstrip_slash identifier ++ [SLASH]) = Raise e ->
    process_identifier w bucket_name identifier output_dir st
    = (Raise e,
       after st [ListBlobs bucket_name (rstrip_slash identifier ++ [SLASH])]).
Proof.
  intros w bucket_name identifier output_dir e st H.
  unfold process_identifier. rewrite !bind_run, emit_run.
  unfold lift. rewrite H. reflexivity.
Qed.

Lemma listing_failure_ends_call_witness :
  process_identifier
    {| read_text := read_text sample_world;
       new_client := Ok tt;
       list_blobs := fun _ _ => Raise (ExternalError (py "403 Forbidden"));
       download_as_bytes := sample_download;
       image_open := sample_open |}
    (py "afaculty") (py "jane//") (Path.of_str (py "portraits")) initial_state
  = (Raise (ExternalError (py "403 Forbidden")),
     after initial_state [ListBlobs (py "afaculty") (py "jane/")]).
Proof.
  apply (listing_failure_ends_call _ (py "afaculty") (py "jane//")
           (Path.of_str (py "portraits"))
           (ExternalError (py "403 Forbidden")) initial_state).
  reflexivity.
Defined.

(** ** Counting effects *)


Section AtMost.

Context (K : event -> bool).








End AtMost.



Section Effects.

Variable w : World.
Variables (bucket_name identifier : str) (output_dir : Path.t).

(** Bounds for a kind [K] of which a listing request counts for at most
    [nl], a download for [nd], a directory for [nm], a file for [nw] and a
    log record for nothing. *)
Section Kind.

Context (K : event -> bool) (nl nd nm nw : nat).
Hypothesis Klist : forall b p, ((if K (ListBlobs b p) then 1 else 0) <= nl)%nat.
Hypothesis Kdown : forall b, ((if K (Download b) then 1 else 0) <= nd)%nat.
Hypothesis Kmkdir : forall d, ((if K (Mkdir d) then 1 else 0) <= nm)%nat.
Hypothesis Kwrite : forall d t, ((if K (WriteJpeg d t) then 1 else 0) <= nw)%nat.
Hypothesis Klog : forall lvl msg, K (Log lvl msg) = false.




End Kind.

Lemma emit_then_appends (P : event -> Prop) {A} e (m : unit -> M A) st :
  (forall u, appends P (m u)) ->
  exists evs,
    trace (snd ((emit e ≫= m) st)) = trace st ++ e :: evs /\ Forall P evs.
Proof.
  intros Hm. rewrite bind_run, emit_run.
  destruct (Hm tt (after st [e])) as (evs & E & F).
  exists evs. rewrite E. simpl. rewrite <- app_assoc. auto.
Qed.

(** A call starts with its listing request and makes no other. *)
Lemma process_identifier_lists_once st :
  exists evs,
    trace (snd (process_identifier w bucket_name identifier output_dir st))
    = trace st
      ++ ListBlobs bucket_name (rstrip_slash identifier ++ [SLASH]) :: evs
    /\ Forall (fun e => is_listing e = false) evs.
Proof.
  unfold process_identifier. apply emit_then_appends. intros _.
  apply appends_bind; [apply appends_lift|]. intros listed.
  destruct (List.filter _ listed) as [|b r];
    cbn [truthy negb choose_primary_blob].
  - apply appends_log. reflexivity.
  - apply appends_bind; [apply appends_log; reflexivity|]. intros _.
    apply appends_bind; [apply download_image_appends; reflexivity|].
    intros image. apply appends_for_each. intros spec.
    apply appends_bind;
      [apply save_thumbnail_appends; intros; reflexivity|].
    intros _. apply appends_log. reflexivity.
Qed.



End Effects.

(** ** What is downloaded and where files go *)

Lemma appends_bind_lift (P : event -> Prop) {A B} (o : outcome A)
  (f : A -> M B) :
  (forall a, o = Ok a -> appends P (f a)) -> appends P (lift o ≫= f).
Proof.
  intros Hf st. rewrite bind_run. unfold lift. destruct o as [a|e].
  - apply (Hf a eq_refl).
  - exists []. simpl. rewrite app_nil_r. auto.
Qed.

Lemma appends_head (P : event -> Prop) {A} (m : M A) st :
  appends P m -> forall evs,
    trace (snd (m st)) = trace st ++ evs -> Forall P evs.
Proof.
  intros Hm evs E. destruct (Hm st) as (evs' & E' & F).
  rewrite E in E'. apply app_inv_head in E'. subst. exact F.
Qed.

(** Whatever [process_identifier] downloads was listed under the
    identifier's prefix, passes the filter, and is at least as large as every
    other listed blob that passes it. *)
Theorem only_a_largest_candidate_is_downloaded :
  forall w bucket_name identifier output_dir st,
    exists evs,
      trace (snd (process_identifier w bucket_name identifier output_dir st))
      = trace st ++ evs
      /\ forall e, e ∈ evs ->
           downloads_largest_candidate w bucket_name identifier e.
Proof.
  intros w bucket_name identifier output_dir st.
  cut (appends (downloads_largest_candidate w bucket_name identifier)
         (process_identifier w bucket_name identifier output_dir)).
  { intros H. destruct (H st) as (evs & E & F). exists evs.
    split; [exact E|]. apply Forall_forall, F. }
  unfold process_identifier.
  apply appends_bind; [apply appends_emit; exact Logic.I|]. intros _.
  apply appends_bind_lift. intros listed Hl.
  destruct (List.filter _ listed) as [|b r] eqn:Ef;
    cbn [truthy negb choose_primary_blob].
  - apply appends_log. exact Logic.I.
  - apply appends_bind; [apply appends_log; exact Logic.I|]. intros _.
    apply appends_bind.
    + apply download_image_appends. simpl. exists listed.
      split; [exact Hl|].
      destruct (choose_primary_blob_split (b :: r) ltac:(discriminate))
        as (best & pre & post & Hc & Es & Hpre & Hpost).
      simpl in Hc. injection Hc as <-.
      assert (forall x, x ∈ b :: r ->
                x ∈ listed /\ candidate (Blob.name x) = true) as Hin.
      { intros x Hx. rewrite <- Ef in Hx.
        apply list_elem_of_In, filter_In in Hx as [H1 H2].
        apply list_elem_of_In in H1. auto. }
      assert (max_from size_key b r ∈ b :: r) as Hbest.
      { rewrite Es. apply elem_of_app. right. apply list_elem_of_here. }
      destruct (Hin _ Hbest) as [H1 H2]. split; [exact H1|].
      split; [exact H2|]. intros other Ho Hcand.
      assert (other ∈ b :: r) as Hother.
      { rewrite <- Ef. apply list_elem_of_In, filter_In.
        split; [apply list_elem_of_In, Ho|exact Hcand]. }
      rewrite Es in Hother. rewrite Forall_forall in Hpre, Hpost.
      apply elem_of_app in Hother as [Hx|Hx];
        [apply N.lt_le_incl, Hpre, Hx|].
      apply elem_of_cons in Hx as [->|Hx]; [lia|apply Hpost, Hx].
    + intros image. apply appends_for_each. intros spec.
      apply appends_bind;
        [apply save_thumbnail_appends; intros; exact Logic.I|].
      intros _. apply appends_log. exact Logic.I.
Qed.

Lemma save_thumbnail_checked (P : event -> Prop) image destination size :
  P (Mkdir (Path.parent destination)) ->
  (forall thumbnail, Image.check_save_jpeg thumbnail = Ok tt ->
                     P (WriteJpeg destination thumbnail)) ->
  appends P (save_thumbnail image destination size).
Proof.
  intros Hm Hw st. unfold save_thumbnail. rewrite !bind_run, emit_run.
  unfold lift.
  destruct (Image.copy image) as [t1|e];
    [|exists [Mkdir (Path.parent destination)]; simpl; auto].
  rewrite bind_run.
  destruct (Image.thumbnail size t1) as [t2|e];
    [|exists [Mkdir (Path.parent destination)]; simpl; auto].
  rewrite bind_run.
  destruct (Image.check_save_jpeg t2) as [[]|e] eqn:Hc;
    [|exists [Mkdir (Path.parent destination)]; simpl; auto].
  rewrite bind_run, emit_run, after_after.
  exists [Mkdir (Path.parent destination); WriteJpeg destination t2].
  simpl. auto.
Qed.

Lemma parent_of_child person_dir name :
  Path.of_str name = {| Path.root := []; Path.parts := [name] |} ->
  Path.parent (Path.truediv person_dir name) = person_dir.
Proof.
  intros H. unfold Path.truediv, Path.parent. rewrite H. simpl.
  rewrite removelast_last. destruct person_dir. reflexivity.
Qed.

(** Whatever [process_identifier] does, every [mkdir] call it makes is on
    the output directory joined with the identifier (the call itself makes
    the missing ancestors of that directory too), and every file it writes
    is [cover.jpg] or [profile.jpg] directly in that directory. *)
Theorem writes_stay_in_person_dir :
  forall w bucket_name identifier output_dir st,
    exists evs,
      trace (snd (process_identifier w bucket_name identifier output_dir st))
      = trace st ++ evs
      /\ forall e, e ∈ evs ->
           stays_in_person_dir (Path.truediv output_dir identifier) e.
Proof.
  intros w bucket_name identifier output_dir st.
  cut (appends (stays_in_person_dir (Path.truediv output_dir identifier))
         (process_identifier w bucket_name identifier output_dir)).
  { intros H. destruct (H st) as (evs & E & F). exists evs.
    split; [exact E|]. apply Forall_forall, F. }
  unfold process_identifier.
  apply appends_bind; [apply appends_emit; exact Logic.I|]. intros _.
  apply appends_bind; [apply appends_lift|]. intros listed.
  destruct (List.filter _ listed) as [|b r];
    cbn [truthy negb choose_primary_blob].
  - apply appends_log. exact Logic.I.
  - apply appends_bind; [apply appends_log; exact Logic.I|]. intros _.
    apply appends_bind; [apply download_image_appends; exact Logic.I|].
    intros image. cbn [for_each THUMBNAILS]. cbv zeta.
    unfold ThumbnailSpec.destination. cbn [ThumbnailSpec.name
      ThumbnailSpec.suffix ThumbnailSpec.size].
    change (py "cover" ++ py ".jpg") with (py "cover.jpg").
    change (py "profile" ++ py ".jpg") with (py "profile.jpg").
    apply appends_bind.
    { apply appends_bind.
      - apply save_thumbnail_checked.
        + simpl. apply parent_of_child. reflexivity.
        + intros t Ht. simpl. auto.
      - intros _. apply appends_log. exact Logic.I. }
    intros _. apply appends_bind.
    { apply appends_bind.
      - apply save_thumbnail_checked.
        + simpl. apply parent_of_child. reflexivity.
        + intros t Ht. simpl. auto.
      - intros _. apply appends_log. exact Logic.I. }
    intros _. apply (appends_ret _ tt).
Qed.

(** ** The order of the requests *)

Lemma listings_of_app e1 e2 :
  listings_of (e1 ++ e2) = listings_of e1 ++ listings_of e2.
Proof.
  induction e1 as [|e r IH]; [reflexivity|].
  destruct e; simpl; rewrite ?IH; reflexivity.
Qed.

Lemma listings_of_none evs :
  Forall (fun e => is_listing e = false) evs -> listings_of evs = [].
Proof.
  induction 1 as [|e r He _ IH]; [reflexivity|].
  destruct e; simpl in *; try exact IH. discriminate.
Qed.

Lemma loop_listings w bucket_name output_dir ids st :
  exists evs k,
    trace (snd (for_each ids
                  (fun id => process_identifier w bucket_name id output_dir)
                  st))
    = trace st ++ evs
    /\ listings_of evs
       = List.map (fun id => (bucket_name, rstrip_slash id ++ [SLASH]))
           (take k ids)
    /\ (fst (for_each ids
               (fun id => process_identifier w bucket_name id output_dir) st)
        = Ok tt -> k = length ids).
Proof.
  revert st. induction ids as [|id ids IH]; intros st.
  - exists [], 0%nat. simpl. rewrite app_nil_r. auto.
  - simpl for_each. rewrite bind_run.
    destruct (process_identifier_lists_once w bucket_name id output_dir st)
      as (e1 & E1 & F1).
    destruct (process_identifier w bucket_name id output_dir st)
      as [[[]|e] st1]; simpl in E1.
    + destruct (IH st1) as (e2 & k & E2 & L2 & K2).
      exists ((ListBlobs bucket_name (rstrip_slash id ++ [SLASH]) :: e1) ++ e2),
        (S k).
      split; [rewrite E2, E1, <- app_assoc; reflexivity|].
      split.
      * rewrite listings_of_app. simpl.
        rewrite (listings_of_none _ F1), L2. reflexivity.
      * intros H. simpl. f_equal. apply K2, H.
    + exists (ListBlobs bucket_name (rstrip_slash id ++ [SLASH]) :: e1), 1%nat.
      split; [exact E1|]. split.
      * simpl. rewrite (listings_of_none _ F1). reflexivity.
      * simpl. discriminate.
Qed.

(** The listing requests of a run are those of the resolved identifiers, in
    their sorted order, one each and without gaps, up to where the run
    stopped; a run that ends with status 0 has listed every one of them. *)
Theorem listings_follow_the_resolved_identifiers :
  forall w args lines ids,
    file_lines w args = Ok lines ->
    resolves (lines ++ identifiers args) ids ->
    exists k,
      listings_of (snd (run w args))
      = List.map (fun id => (bucket args, rstrip_slash id ++ [SLASH]))
          (take k ids)
      /\ (fst (run w args) = 0%Z -> k = length ids /\ ids <> []).
Proof.
  intros w args lines ids Hf Hres.
  assert (sorted (py_set (gathered lines (identifiers args))) = ids) as Hs
    by (apply (resolves_unique _ _ _ (sorted_gathered_resolves _ _) Hres)).
  destruct ids as [|i ids'].
  { exists 0%nat. unfold run, main.
    rewrite bind_run. unfold initialize_logging.
    rewrite bind_run, (build_identifier_list_run w args lines _ Hf), Hs.
    simpl. split; [reflexivity|discriminate]. }
  destruct (new_client w) as [[]|e] eqn:Hc.
  - unfold run.
    rewrite (main_resolved w args lines (i :: ids') initial_state Hf Hres
               ltac:(discriminate) Hc).
    destruct (loop_listings w (bucket args) (output args) (i :: ids')
                (after {| log_level := if verbose args then DEBUG else INFO;
                          trace := trace initial_state |} [ClientCreated]))
      as (evs & k & E & L & K).
    destruct (for_each _ _ _) as [[[]|e] st'] eqn:Eloop.
    + exists k. simpl in E. rewrite E. simpl.
      split; [exact L|]. intros _. split; [apply K; reflexivity|discriminate].
    + exists k. simpl in E. rewrite E. simpl.
      split; [exact L|]. discriminate.
  - exists 0%nat. unfold run, main.
    rewrite bind_run. unfold initialize_logging.
    rewrite bind_run, (build_identifier_list_run w args lines _ Hf), Hs.
    rewrite bind_run. unfold storage_Client. rewrite bind_run.
    unfold lift. rewrite Hc. simpl. split; [reflexivity|discriminate].
Qed.

Lemma listings_follow_the_resolved_identifiers_witness :
  exists k,
    listings_of
      (snd (run sample_world (sample_args ["pal"; "max"; "kim"]%string None)))
    = List.map (fun id => (py "afaculty", rstrip_slash id ++ [SLASH]))
        (take k [py "kim"; py "max"; py "pal"])
    /\ (fst (run sample_world (sample_args ["pal"; "max"; "kim"]%string None))
        = 0%Z ->
        k = length [py "kim"; py "max"; py "pal"]
        /\ [py "kim"; py "max"; py "pal"] <> []).
Proof.
  apply (listings_follow_the_resolved_identifiers sample_world
           (sample_args ["pal"; "max"; "kim"]%string None) []
           [py "kim"; py "max"; py "pal"]).
  - reflexivity.
  - replace [py "kim"; py "max"; py "pal"]
      with (sorted (py_set (gathered []
              (identifiers (sample_args ["pal"; "max"; "kim"]%string None)))))
      by (vm_compute; reflexivity).
    apply sorted_gathered_resolves.
Defined.

(** ** The download *)

(** [download_image] issues exactly one download, whether it returns or
    raises; an image it returns is in mode RGB or RGBA and has the size of
    the image that was opened. *)
Theorem download_image_normalises :
  forall w blob st,
    trace (snd (download_image w blob st)) = trace st ++ [Download blob]
    /\ match fst (download_image w blob st) with
       | Ok image =>
           (Image.mode image = Image.RGB \/ Image.mode image = Image.RGBA)
           /\ exists data src,
                download_as_bytes w blob = Ok data
                /\ image_open w data = Ok src
                /\ Image.width image = Image.width src
                /\ Image.height image = Image.height src
       | Raise _ => True
       end.
Proof.
  intros w blob st. unfold download_image. rewrite !bind_run, emit_run.
  unfold lift. destruct (download_as_bytes w blob) as [data|e]; [|simpl; auto].
  rewrite bind_run. destruct (image_open w data) as [src|e] eqn:Ho;
    [|simpl; auto].
  rewrite bind_run. unfold Image.convert_RGB, Image.load.
  destruct (Image.mode src) eqn:Em; simpl;
    try (destruct (Image.pending src); simpl; (split; [reflexivity|]);
         [exact Logic.I|split; [auto|]; exists data, src; auto]);
    (split; [reflexivity|]); (split; [rewrite Em; auto|]);
    exists data, src; auto.
Qed.

(** ** The logging level *)

Lemma same_trace_after st1 st2 evs :
  same_trace st1 st2 -> same_trace (after st1 evs) (after st2 evs).
Proof. intros (E & L1 & L2). unfold same_trace, after. simpl. rewrite E. auto. Qed.

Lemma level_blind_ret {A} (a : A) : level_blind (mret a).
Proof. intros st1 st2 H. split; [reflexivity|exact H]. Qed.

Lemma level_blind_lift {A} (o : outcome A) : level_blind (lift o).
Proof. intros st1 st2 H. split; [reflexivity|exact H]. Qed.

Lemma level_blind_raise {A} e : level_blind (@raise A e).
Proof. intros st1 st2 H. split; [reflexivity|exact H]. Qed.

Lemma level_blind_emit e : level_blind (emit e).
Proof.
  intros st1 st2 H. rewrite !emit_run. split; [reflexivity|].
  apply same_trace_after, H.
Qed.

(** Records at level INFO or above pass at both levels. *)
Lemma level_blind_log lvl msg : 20 <= level_no lvl -> level_blind (log lvl msg).
Proof.
  intros Hl st1 st2 H. pose proof H as (_ & L1 & L2). unfold log.
  destruct (N.leb_spec (level_no (log_level st1)) (level_no lvl)); [|lia].
  destruct (N.leb_spec (level_no (log_level st2)) (level_no lvl)); [|lia].
  apply level_blind_emit, H.
Qed.

Lemma level_blind_bind {A B} (m : M A) (f : A -> M B) :
  level_blind m -> (forall a, level_blind (f a)) -> level_blind (m ≫= f).
Proof.
  intros Hm Hf st1 st2 H. rewrite !bind_run.
  destruct (Hm st1 st2 H) as [E S].
  destruct (m st1) as [[a1|e1] s1], (m st2) as [[a2|e2] s2];
    simpl in E, S; try discriminate.
  - injection E as <-. apply Hf, S.
  - injection E as <-. auto.
Qed.

Lemma level_blind_for_each {A} (body : A -> M unit) l :
  (forall x, level_blind (body x)) -> level_blind (for_each l body).
Proof.
  intros Hb. induction l as [|x l IH]; simpl.
  - apply (level_blind_ret tt).
  - apply level_blind_bind; auto.
Qed.

Lemma build_identifier_list_level_blind w args :
  level_blind (build_identifier_list w args).
Proof.
  unfold build_identifier_list. apply level_blind_bind.
  - destruct (from_file args).
    + apply level_blind_bind; [apply level_blind_lift|].
      intros text. apply level_blind_ret.
    + apply level_blind_ret.
  - intros from_lines. cbv zeta.
    destruct (negb _); [apply level_blind_raise|apply level_blind_ret].
Qed.

Lemma process_identifier_level_blind w bucket_name identifier output_dir :
  level_blind (process_identifier w bucket_name identifier output_dir).
Proof.
  unfold process_identifier.
  apply level_blind_bind; [apply level_blind_emit|]. intros _.
  apply level_blind_bind; [apply level_blind_lift|]. intros listed.
  destruct (List.filter _ listed) as [|b r];
    cbn [truthy negb choose_primary_blob].
  - apply level_blind_log. simpl. lia.
  - apply level_blind_bind; [apply level_blind_log; simpl; lia|]. intros _.
    apply level_blind_bind.
    + unfold download_image.
      apply level_blind_bind; [apply level_blind_emit|]. intros _.
      apply level_blind_bind; [apply level_blind_lift|]. intros data.
      apply level_blind_bind; [apply level_blind_lift|]. intros image.
      destruct (negb _); [apply level_blind_lift|apply level_blind_ret].
    + intros image. apply level_blind_for_each. intros spec.
      apply level_blind_bind.
      * unfold save_thumbnail.
        apply level_blind_bind; [apply level_blind_emit|]. intros _.
        apply level_blind_bind; [apply level_blind_lift|]. intros t1.
        apply level_blind_bind; [apply level_blind_lift|]. intros t2.
        apply level_blind_bind; [apply level_blind_lift|]. intros _.
        apply level_blind_emit.
      * intros _. apply level_blind_log. simpl. lia.
Qed.

(** The script logs nothing below level INFO, so [--verbose] changes none of
    its effects: the status, the requests, the files written and the
    script's own log records are the same with and without it. *)
Theorem verbose_changes_no_effect :
  forall w args, run w (set_verbose true args) = run w (set_verbose false args).
Proof.
  intros w args. unfold run, main. rewrite !bind_run.
  unfold initialize_logging. cbn [set_verbose verbose bucket output].
  set (rest := fun a : Namespace =>
         build_identifier_list w a ≫= fun ids =>
         storage_Client w ≫= fun _ =>
         for_each ids (fun identifier =>
           process_identifier w (bucket args) identifier (output args))
         ≫= fun _ => mret 0%Z).
  assert (forall a, level_blind (rest a)) as Hrest.
  { intros a. unfold rest.
    apply level_blind_bind; [apply build_identifier_list_level_blind|].
    intros ids. apply level_blind_bind.
    - unfold storage_Client.
      apply level_blind_bind; [apply level_blind_lift|]. intros _.
      apply level_blind_emit.
    - intros _. apply level_blind_bind.
      + apply level_blind_for_each. intros id.
        apply process_identifier_level_blind.
      + intros _. apply level_blind_ret. }
  assert (forall st, rest (set_verbose true args) st
                     = rest (set_verbose false args) st) as Hargs.
  { intros st. unfold rest, build_identifier_list. reflexivity. }
  fold (rest (set_verbose true args)). fold (rest (set_verbose false args)).
  rewrite Hargs.
  destruct (Hrest (set_verbose false args)
              {| log_level := DEBUG; trace := trace initial_state |}
              {| log_level := INFO; trace := trace initial_state |})
    as [E (T & _)].
  { unfold same_trace. simpl. repeat split; lia. }
  destruct (rest _ {| log_level := DEBUG; trace := _ |}) as [r1 s1].
  destruct (rest _ {| log_level := INFO; trace := _ |}) as [r2 s2].
  simpl in E, T. rewrite E, T. reflexivity.
Qed.

(** ** Names the filter keeps *)

Lemma split_on_no_sep sep t : sep ∉ t -> split_on sep t = [t].
Proof.
  induction t as [|c r IH]; intros H; [reflexivity|]. simpl.
  destruct (N.eqb_spec c sep) as [->|_].
  - exfalso. apply H, list_elem_of_here.
  - rewrite IH; [reflexivity|]. intros Hin. apply H, list_elem_of_further, Hin.
Qed.

Lemma split_on_after_sep sep d0 t :
  sep ∉ t -> exists p pre, split_on sep (d0 ++ sep :: t) = p :: pre ++ [t].
Proof.
  intros Ht. induction d0 as [|c d0 (p & pre & IH)]; simpl.
  - rewrite N.eqb_refl, (split_on_no_sep sep t Ht). exists [], []. reflexivity.
  - rewrite IH. destruct (c =? sep).
    + exists [], (p :: pre). reflexivity.
    + exists (c :: p), pre. reflexivity.
Qed.

Lemma endswith_slash_snoc d :
  endswith_slash d = true -> exists d0, d = d0 ++ [SLASH].
Proof.
  unfold endswith_slash. destruct (rev d) as [|c r] eqn:E; [discriminate|].
  intros H. apply N.eqb_eq in H. subst c. exists (rev r).
  rewrite <- (rev_involutive d), E. reflexivity.
Qed.

Lemma split_on_last d t :
  d = [] \/ endswith_slash d = true -> SLASH ∉ t ->
  exists pre, split_on SLASH (d ++ t) = pre ++ [t].
Proof.
  intros [->|Hd] Ht.
  - exists []. apply split_on_no_sep, Ht.
  - destruct (endswith_slash_snoc d Hd) as (d0 & ->).
    destruct (split_on_after_sep SLASH d0 t Ht) as (p & pre & E).
    exists (p :: pre). rewrite <- app_assoc. exact E.
Qed.

Lemma lstrip_slash_app d t :
  match t with [] => False | c :: _ => c <> SLASH end ->
  lstrip_slash (d ++ t) = lstrip_slash d ++ t.
Proof.
  intros Ht. unfold lstrip_slash.
  induction d as [|c d IH]; cbn [app lstrip_by].
  - destruct t as [|x t]; [destruct Ht|]. cbn [lstrip_by].
    destruct (N.eqb_spec SLASH x); [congruence|reflexivity].
  - destruct (SLASH =? c); [exact IH|reflexivity].
Qed.

Lemma lstrip_slash_dirlike d :
  d = [] \/ endswith_slash d = true ->
  lstrip_slash d = [] \/ endswith_slash (lstrip_slash d) = true.
Proof.
  intros [->|Hd]; [left; reflexivity|].
  destruct (lstrip_by_split (N.eqb SLASH) d) as (ws & E & _).
  fold (lstrip_slash d) in E.
  destruct (lstrip_slash d) as [|c r] eqn:El; [left; reflexivity|right].
  unfold endswith_slash in *. rewrite E, rev_app_distr in Hd.
  destruct (rev (c :: r)) as [|x y] eqn:Er; [|exact Hd].
  apply (f_equal (@length N)) in Er. rewrite length_rev in Er. discriminate.
Qed.

Lemma rfind_app c s e i :
  rfind c e = Some i -> rfind c (s ++ e) = Some (length s + i)%nat.
Proof.
  intros H. induction s as [|x s IH]; simpl; [exact H|].
  rewrite IH. reflexivity.
Qed.

(** The final component of the path of [d ++ t], where [d] is empty or ends
    in a slash and [t] is a plain file name. *)
Lemma name_of_file_path d t :
  d = [] \/ endswith_slash d = true ->
  t <> [] -> SLASH ∉ t -> t <> [DOT] ->
  Path.name (Path.of_str (d ++ t)) = t.
Proof.
  intros Hd Hne Hs Hdot.
  assert (match t with [] => False | c :: _ => c <> SLASH end) as Hhead.
  { destruct t as [|c r]; [congruence|]. intros ->.
    apply Hs, list_elem_of_here. }
  assert (Path.keep_component t = true) as Hkeep.
  { unfold Path.keep_component. destruct t; [congruence|]. simpl.
    rewrite bool_decide_eq_false_2; auto. }
  assert (forall d', d' = [] \/ endswith_slash d' = true ->
            List.last (List.filter Path.keep_component
                         (split_on SLASH (d' ++ t))) [] = t) as Hlast.
  { intros d' Hd'. destruct (split_on_last d' t Hd' Hs) as (pre & ->).
    rewrite List.filter_app. simpl. rewrite Hkeep. apply last_last. }
  unfold Path.name, Path.of_str, Path.splitroot.
  destruct (d ++ t) as [|c r] eqn:E.
  { destruct d; [simpl in E; congruence|discriminate]. }
  rewrite <- E. destruct (c =? SLASH).
  - rewrite (lstrip_slash_app d t Hhead).
    destruct (_ =? 2)%nat; simpl; apply Hlast, lstrip_slash_dirlike, Hd.
  - simpl. apply Hlast, Hd.
Qed.

Lemma candidate_of_lowercase_name d s e :
  d = [] \/ endswith_slash d = true ->
  s <> [] -> SLASH ∉ s ->
  e ∈ [py ".jpg"; py ".jpeg"; py ".png"; py ".webp"; py ".gif"] ->
  candidate (d ++ s ++ e) = true.
Proof.
  intros Hd Hs Hslash He.
  assert (rfind DOT e = Some 0%nat /\ (SLASH ∉ e) /\ (2 <= length e)%nat
          /\ endswith_slash e = false /\ lower e ∈ IMAGE_EXTENSIONS)
    as (Hr & Hse & Hlen & Hend & Hin).
  { repeat (apply elem_of_cons in He as [->|He];
            [repeat split; try (vm_compute; reflexivity);
             [intros H; repeat (apply elem_of_cons in H as [H|H];
                                [discriminate H|]);
              apply elem_of_nil in H; exact H
             |simpl; lia]|]).
    apply elem_of_nil in He. destruct He. }
  assert (SLASH ∉ s ++ e) as Hst.
  { intros H. apply elem_of_app in H as [H|H]; auto. }
  assert (Path.name (Path.of_str (d ++ s ++ e)) = s ++ e) as Hname.
  { apply name_of_file_path; auto.
    - destruct s; [congruence|discriminate].
    - intros H. apply (f_equal (@length N)) in H. rewrite length_app in H.
      simpl in H. destruct s; [congruence|simpl in H; lia]. }
  unfold candidate, is_image_blob.
  assert (endswith_slash (d ++ s ++ e) = false) as ->.
  { unfold endswith_slash in *. rewrite !rev_app_distr.
    destruct (rev e) as [|c r] eqn:Er; [|exact Hend].
    apply (f_equal (@length N)) in Er. rewrite length_rev in Er.
    simpl in Er. lia. }
  simpl. apply bool_decide_eq_true.
  unfold Path.suffix. rewrite Hname, (rfind_app DOT s e 0 Hr).
  rewrite Nat.add_0_r, length_app.
  assert ((0 <? length s)%nat = true) as ->.
  { apply Nat.ltb_lt. destruct s; [congruence|simpl; lia]. }
  assert ((length s <? length s + length e - 1)%nat = true) as ->
    by (apply Nat.ltb_lt; lia).
  simpl. rewrite drop_app_length. exact Hin.
Qed.

(** Every name made of a directory part (empty or ending in a slash), a
    non-empty stem without a slash and one of the five extensions, in any
    letter case, is kept by the filter. *)
Theorem image_file_names_are_candidates :
  forall dir stem ext : str,
    dir = [] \/ endswith_slash dir = true ->
    stem <> [] -> SLASH ∉ stem ->
    lower ext ∈ IMAGE_EXTENSIONS ->
    candidate (dir ++ stem ++ ext) = true.
Proof.
  intros dir stem ext Hd Hs Hslash He.
  rewrite <- lower_candidate. unfold lower. rewrite !List.map_app.
  fold (lower dir) (lower stem) (lower ext).
  apply candidate_of_lowercase_name.
  - destruct Hd as [->|Hd]; [left; reflexivity|right].
    rewrite lower_endswith_slash. exact Hd.
  - destruct stem; [congruence|discriminate].
  - intros H. apply list_elem_of_In, in_map_iff in H as (c & Hc & Hin).
    apply Hslash. apply N.eqb_eq in Hc. rewrite lower_cp_eqb_slash in Hc.
    apply N.eqb_eq in Hc. subst c. apply list_elem_of_In, Hin.
  - unfold IMAGE_EXTENSIONS in He. apply elem_of_list_to_set in He. exact He.
Qed.

Lemma image_file_names_are_candidates_witness :
  candidate (py "jane/2024/" ++ py "Portrait.final" ++ py ".JpEg") = true.
Proof.
  apply (image_file_names_are_candidates (py "jane/2024/")
           (py "Portrait.final") (py ".JpEg")).
  - right. reflexivity.
  - discriminate.
  - intros H. repeat (apply elem_of_cons in H as [H|H]; [discriminate H|]).
    apply elem_of_nil in H. exact H.
  - vm_compute. reflexivity.
Defined.

(** A file whose name is nothing but an extension is not kept: [pathlib]
    gives such a name no suffix. *)
Theorem bare_extension_is_not_a_candidate :
  forall dir ext : str,
    dir = [] \/ endswith_slash dir = true ->
    lower ext ∈ IMAGE_EXTENSIONS ->
    candidate (dir ++ ext) = false.
Proof.
  intros dir ext Hd He.
  rewrite <- lower_candidate. unfold lower. rewrite List.map_app.
  fold (lower dir) (lower ext).
  assert (lower dir = [] \/ endswith_slash (lower dir) = true) as Hd'.
  { destruct Hd as [->|Hd]; [left; reflexivity|right].
    rewrite lower_endswith_slash. exact Hd. }
  unfold IMAGE_EXTENSIONS in He. apply elem_of_list_to_set in He.
  set (e := lower ext) in *. clearbody e.
  assert (rfind DOT e = Some 0%nat /\ (SLASH ∉ e) /\ e <> [] /\ e <> [DOT])
    as (Hr & Hs & Hne & Hdot).
  { repeat (apply elem_of_cons in He as [->|He];
            [repeat split; try (vm_compute; reflexivity); try discriminate;
             intros H; repeat (apply elem_of_cons in H as [H|H];
                               [discriminate H|]);
             apply elem_of_nil in H; exact H|]).
    apply elem_of_nil in He. destruct He. }
  unfold candidate, is_image_blob, Path.suffix.
  rewrite (name_of_file_path (lower dir) e Hd' Hne Hs Hdot), Hr. simpl.
  rewrite andb_false_r. reflexivity.
Qed.

Lemma bare_extension_is_not_a_candidate_witness :
  candidate (py "jane/" ++ py ".PNG") = false.
Proof.
  apply (bare_extension_is_not_a_candidate (py "jane/") (py ".PNG")).
  - right. reflexivity.
  - vm_compute. reflexivity.
Defined.

(** ** Destinations *)

Lemma of_str_plain_name file :
  file <> [] -> SLASH ∉ file -> file <> [DOT] ->
  Path.of_str file = {| Path.root := []; Path.parts := [file] |}.
Proof.
  intros Hne Hs Hdot. unfold Path.of_str, Path.splitroot.
  destruct file as [|c r]; [congruence|].
  destruct (N.eqb_spec c SLASH) as [->|_].
  { exfalso. apply Hs, list_elem_of_here. }
  rewrite (split_on_no_sep SLASH (c :: r) Hs).
  assert (Path.keep_component (c :: r) = true) as Hkeep.
  { unfold Path.keep_component. simpl truthy.
    rewrite bool_decide_eq_false_2; auto. }
  cbn [List.filter]. rewrite Hkeep. reflexivity.
Qed.

(** The destination of a thumbnail whose file name is a plain name lies
    directly in the base path, under that name. *)
Theorem destination_is_a_child_of_base :
  forall (spec : ThumbnailSpec.t) (base_path : Path.t),
    let file := ThumbnailSpec.name spec ++ ThumbnailSpec.suffix spec in
    file <> [] -> SLASH ∉ file -> file <> [DOT] ->
    Path.parent (ThumbnailSpec.destination spec base_path) = base_path
    /\ Path.name (ThumbnailSpec.destination spec base_path) = file
    /\ Path.root (ThumbnailSpec.destination spec base_path)
       = Path.root base_path.
Proof.
  intros spec base_path file Hne Hs Hdot.
  pose proof (of_str_plain_name file Hne Hs Hdot) as Hf.
  unfold ThumbnailSpec.destination. fold file. split; [|split].
  - apply parent_of_child, Hf.
  - unfold Path.name, Path.truediv. rewrite Hf. simpl. apply last_last.
  - unfold Path.truediv. rewrite Hf. reflexivity.
Qed.

Lemma destination_is_a_child_of_base_witness :
  Path.parent
    (ThumbnailSpec.destination
       {| ThumbnailSpec.name := py "profile"; ThumbnailSpec.size := (256, 256);
          ThumbnailSpec.suffix := py ".jpg" |}
       (Path.of_str (py "/srv/portraits/jane")))
  = Path.of_str (py "/srv/portraits/jane")
  /\ Path.name
       (ThumbnailSpec.destination
          {| ThumbnailSpec.name := py "profile";
             ThumbnailSpec.size := (256, 256);
             ThumbnailSpec.suffix := py ".jpg" |}
          (Path.of_str (py "/srv/portraits/jane")))
     = py "profile" ++ py ".jpg"
  /\ Path.root
       (ThumbnailSpec.destination
          {| ThumbnailSpec.name := py "profile";
             ThumbnailSpec.size := (256, 256);
             ThumbnailSpec.suffix := py ".jpg" |}
          (Path.of_str (py "/srv/portraits/jane")))
     = Path.root (Path.of_str (py "/srv/portraits/jane")).
Proof.
  apply (destination_is_a_child_of_base
           {| ThumbnailSpec.name := py "profile";
              ThumbnailSpec.size := (256, 256);
              ThumbnailSpec.suffix := py ".jpg" |}
           (Path.of_str (py "/srv/portraits/jane"))).
  - discriminate.
  - intros H. repeat (apply elem_of_cons in H as [H|H]; [discriminate H|]).
    apply elem_of_nil in H. exact H.
  - discriminate.
Defined.

(** ** The two thumbnails compared *)

Lemma round_within_monotone a b v1 v2 :
  0 < b -> 1 <= v2 ->
  Image.absdiff (v1 * b) a < b -> Image.absdiff (v2 * b) (2 * a) < b ->
  v1 <= v2.
Proof.
  unfold Image.absdiff. intros Hb H2 A1 A2.
  assert (v1 * b < a + b) as B1
    by (destruct (N.leb_spec (v1 * b) a); lia).
  assert (2 * a < v2 * b + b) as B2
    by (destruct (N.leb_spec (v2 * b) (2 * a)); lia).
  destruct (N.le_gt_cases v1 v2) as [|Hgt]; [assumption|exfalso].
  assert ((v2 + 1) * b <= v1 * b) as B3 by nia.
  assert (a < b) by lia. assert (v2 * b < b) by lia. nia.
Qed.

(** Scaled into 256 by 256 an image is no larger than scaled into 512 by
    512. *)
Lemma thumbnail_256_le_512 im small large :
  0 < Image.width im -> 0 < Image.height im ->
  Image.thumbnail (256, 256) im = Ok small ->
  Image.thumbnail (512, 512) im = Ok large ->
  Image.width small <= Image.width large
  /\ Image.height small <= Image.height large.
Proof.
  intros Hw Hh Hs Hl.
  destruct (thumbnail_scaled (256, 256) im ltac:(reflexivity)
              ltac:(reflexivity) Hw Hh) as (s' & Es & Ss & _).
  rewrite Hs in Es. injection Es as <-.
  destruct Ss as (_ & _ & Sw & Sh & _).
  revert Hs Hl. unfold Image.thumbnail, Image.preserve_aspect_ratio.
  set (w := Image.width im) in *. set (h := Image.height im) in *.
  destruct (N.leb_spec w 512) as [Hw5|Hw5], (N.leb_spec h 512) as [Hh5|Hh5];
    cbn [andb].
  1: { intros _ [= <-]. fold w h. lia. }
  all: destruct (N.leb_spec w 256) as [Hw2|Hw2],
         (N.leb_spec h 256) as [Hh2|Hh2]; cbn [andb]; try lia.
  all: destruct (N.eqb_spec h 0) as [?|_]; [lia|].
  all: destruct (N.leb_spec (w * 256) (256 * h)) as [Hb2|Hb2],
         (N.leb_spec (w * 512) (512 * h)) as [Hb5|Hb5]; try lia.
  all: intros [= <-] [= <-]; simpl; (split; [|try lia]); try lia.
  all: try (destruct (round_aspect_x_spec w h 256 Hw Hh ltac:(lia))
              as (_ & A1 & _);
            destruct (round_aspect_x_spec w h 512 Hw Hh ltac:(lia))
              as (V2 & A2 & _);
            apply (round_within_monotone (256 * w) h); auto;
            replace (2 * (256 * w)) with (512 * w) by lia; exact A2).
  all: destruct (round_aspect_y_spec w h 256 Hw Hh ltac:(lia))
         as (_ & A1 & _);
       destruct (round_aspect_y_spec w h 512 Hw Hh ltac:(lia))
         as (V2 & A2 & _);
       apply (round_within_monotone (256 * h) w); auto;
       replace (2 * (256 * h)) with (512 * h) by lia; exact A2.
Qed.

Lemma destination_name_of_thumbnail output_dir identifier file :
  file <> [] -> SLASH ∉ file -> file <> [DOT] ->
  Path.name (Path.truediv (Path.truediv output_dir identifier) file) = file.
Proof.
  intros Hne Hs Hdot. unfold Path.name, Path.truediv at 1.
  rewrite (of_str_plain_name file Hne Hs Hdot). simpl. apply last_last.
Qed.

Lemma appends_bind_result (P : event -> Prop) {A B} (m : M A)
  (f : A -> M B) :
  appends P m ->
  (forall a, (exists st1, fst (m st1) = Ok a) -> appends P (f a)) ->
  appends P (m ≫= f).
Proof.
  intros Hm Hf st. rewrite bind_run.
  destruct (Hm st) as (e1 & E1 & F1).
  destruct (m st) as [[a|e] st1] eqn:Em; simpl in E1.
  - destruct (Hf a ltac:(exists st; rewrite Em; reflexivity) st1)
      as (e2 & E2 & F2).
    exists (e1 ++ e2). rewrite E2, E1, app_assoc.
    split; [reflexivity|]. apply Forall_app; auto.
  - exists e1. auto.
Qed.

(** What [download_image] returns does not depend on the state. *)
Lemma download_image_fst w blob st1 st2 :
  fst (download_image w blob st1) = fst (download_image w blob st2).
Proof.
  unfold download_image. rewrite !bind_run, !emit_run. unfold lift.
  destruct (download_as_bytes w blob) as [data|e]; [|reflexivity].
  rewrite ?bind_run.
  destruct (image_open w data) as [im|e]; [|reflexivity].
  rewrite ?bind_run. destruct (negb _); [|reflexivity].
  destruct (Image.convert_RGB im); reflexivity.
Qed.

Lemma save_thumbnail_written (P : event -> Prop) image destination box :
  P (Mkdir (Path.parent destination)) ->
  (forall thumbnail,
     Image.pending image = None ->
     Image.thumbnail box image = Ok thumbnail ->
     Image.check_save_jpeg thumbnail = Ok tt ->
     P (WriteJpeg destination thumbnail)) ->
  appends P (save_thumbnail image destination box).
Proof.
  intros Hm Hw st.
  destruct (save_thumbnail_cases image destination box st)
    as [(e & -> & _)|(th & -> & Hp & Ht & Hc)].
  - exists [Mkdir (Path.parent destination)]. simpl. auto.
  - exists [Mkdir (Path.parent destination); WriteJpeg destination th].
    simpl. auto.
Qed.

(** Every file [process_identifier] writes is a thumbnail of the one image
    downloaded for the identifier. *)
Lemma process_identifier_written w bucket_name identifier output_dir :
  appends (written_by w bucket_name identifier output_dir)
    (process_identifier w bucket_name identifier output_dir).
Proof.
  unfold process_identifier. cbv zeta.
  apply appends_bind; [apply appends_emit; exact Logic.I|]. intros _.
  apply appends_bind_lift. intros listed Hlisted.
  destruct (List.filter _ listed) as [|b r] eqn:Ef;
    cbn [truthy negb].
  - apply appends_log. exact Logic.I.
  - destruct (choose_primary_blob (b :: r)) as [blob|] eqn:Hchosen;
      [|apply appends_log; exact Logic.I].
    apply appends_bind; [apply appends_log; exact Logic.I|]. intros _.
    apply appends_bind_result;
      [apply download_image_appends; exact Logic.I|].
    intros image (st1 & Hd).
    cbn [for_each THUMBNAILS]. cbv zeta.
    unfold ThumbnailSpec.destination. cbn [ThumbnailSpec.name
      ThumbnailSpec.suffix ThumbnailSpec.size].
    change (py "cover" ++ py ".jpg") with (py "cover.jpg").
    change (py "profile" ++ py ".jpg") with (py "profile.jpg").
    apply appends_bind.
    { apply appends_bind.
      - apply save_thumbnail_written; [exact Logic.I|].
        intros th Hp Ht Hc. simpl.
        exists listed, blob, image, st1. split; [exact Hlisted|].
        split; [rewrite Ef; exact Hchosen|]. auto 10.
      - intros _. apply appends_log. exact Logic.I. }
    intros _. apply appends_bind.
    { apply appends_bind.
      - apply save_thumbnail_written; [exact Logic.I|].
        intros th Hp Ht Hc. simpl.
        exists listed, blob, image, st1. split; [exact Hlisted|].
        split; [rewrite Ef; exact Hchosen|]. auto 10.
      - intros _. apply appends_log. exact Logic.I. }
    intros _. apply (appends_ret _ tt).
Qed.

Lemma writes_of_elem evs destination thumbnail :
  (destination, thumbnail) ∈ writes_of evs ->
  WriteJpeg destination thumbnail ∈ evs.
Proof.
  induction evs as [|e r IH]; simpl; intros H.
  - apply elem_of_nil in H. destruct H.
  - destruct e; try (apply list_elem_of_further, IH, H).
    apply elem_of_cons in H as [[= <- <-]|H];
      [apply list_elem_of_here|apply list_elem_of_further, IH, H].
Qed.

Lemma process_identifier_write w bucket_name identifier output_dir st evs
  destination thumbnail :
  trace (snd (process_identifier w bucket_name identifier output_dir st))
  = trace st ++ evs ->
  (destination, thumbnail) ∈ writes_of evs ->
  written_by w bucket_name identifier output_dir
    (WriteJpeg destination thumbnail).
Proof.
  intros E H.
  pose proof (appends_head _ _ st
                (process_identifier_written w bucket_name identifier
                   output_dir) evs E) as F.
  rewrite Forall_forall in F. apply F, writes_of_elem, H.
Qed.

(** An image whose thumbnail the JPEG writer accepts has a height. *)
Lemma thumbnail_checked_height box im th :
  Image.thumbnail box im = Ok th ->
  Image.check_save_jpeg th = Ok tt ->
  0 < Image.height im.
Proof.
  intros Ht Hc. destruct (N.eq_dec (Image.height im) 0) as [Hz|]; [|lia].
  exfalso. revert Ht. unfold Image.thumbnail, Image.preserve_aspect_ratio.
  destruct box as [x y]. rewrite Hz.
  destruct (_ && _); [|discriminate].
  intros [= <-]. revert Hc. unfold Image.check_save_jpeg. rewrite Hz.
  rewrite orb_true_r. destruct (negb _); discriminate.
Qed.

Lemma round_aspect_x_no_width h y : Image.round_aspect_x 0 h y = 1.
Proof.
  unfold Image.round_aspect_x. cbv zeta.
  rewrite N.mul_0_r. change (0 / h) with 0. change (0 mod h) with 0.
  simpl (0 =? 0). cbv iota. destruct (PrimFloat.ltb _ _); reflexivity.
Qed.

(** Scaled into 256 by 256 an image is no larger than scaled into 512 by
    512, when the writer accepts the larger one. *)
Lemma thumbnail_256_le_512_written im small large :
  Image.thumbnail (256, 256) im = Ok small ->
  Image.thumbnail (512, 512) im = Ok large ->
  Image.check_save_jpeg large = Ok tt ->
  Image.width small <= Image.width large
  /\ Image.height small <= Image.height large.
Proof.
  intros Hs Hl Hc.
  pose proof (thumbnail_checked_height _ _ _ Hl Hc) as Hh.
  destruct (N.eq_dec (Image.width im) 0) as [Hz|Hnz];
    [|apply (thumbnail_256_le_512 im); auto; lia].
  revert Hs Hl. unfold Image.thumbnail, Image.preserve_aspect_ratio.
  rewrite Hz. set (h := Image.height im) in *.
  cbn [N.leb andb]. simpl (0 <=? _).
  destruct (N.leb_spec h 512) as [Hh5|Hh5]; cbn [andb].
  - intros _ [= <-]. exfalso. revert Hc. unfold Image.check_save_jpeg.
    rewrite Hz. simpl (0 =? 0). cbn [orb]. destruct (negb _); discriminate.
  - destruct (N.leb_spec h 256) as [Hh2|_]; [lia|]. cbn [andb].
    destruct (N.eqb_spec h 0) as [?|_]; [lia|].
    rewrite !N.mul_0_l. simpl (0 <=? _).
    rewrite !round_aspect_x_no_width, !andb_false_r.
    rewrite (proj2 (N.leb_le 0 (256 * h)) (N.le_0_l _)).
    rewrite (proj2 (N.leb_le 0 (512 * h)) (N.le_0_l _)).
    intros [= <-] [= <-]. simpl. lia.
Qed.

Lemma thumbnail_names_differ : py "profile.jpg" <> py "cover.jpg".
Proof. discriminate. Qed.

Lemma thumbnail_destination_name output_dir identifier destination :
  (destination
   = Path.truediv (Path.truediv output_dir identifier) (py "cover.jpg")
   -> Path.name destination = py "cover.jpg")
  /\ (destination
      = Path.truediv (Path.truediv output_dir identifier) (py "profile.jpg")
      -> Path.name destination = py "profile.jpg").
Proof.
  split; intros ->; apply destination_name_of_thumbnail;
    try discriminate;
    intros H; repeat (apply elem_of_cons in H as [H|H]; [discriminate H|]);
    apply elem_of_nil in H; exact H.
Qed.

(** Whenever a call writes both a [cover.jpg] and a [profile.jpg], the
    profile is no larger than the cover in either direction. *)
Theorem profile_is_no_larger_than_cover :
  forall w bucket_name identifier output_dir st evs d1 cover d2 profile,
    trace (snd (process_identifier w bucket_name identifier output_dir st))
    = trace st ++ evs ->
    (d1, cover) ∈ writes_of evs ->
    (d2, profile) ∈ writes_of evs ->
    Path.name d1 = py "cover.jpg" ->
    Path.name d2 = py "profile.jpg" ->
    Image.width profile <= Image.width cover
    /\ Image.height profile <= Image.height cover.
Proof.
  intros w bucket_name identifier output_dir st evs d1 cover d2 profile
    E H1 H2 N1 N2.
  pose proof (process_identifier_write _ _ _ _ _ _ _ _ E H1) as W1.
  pose proof (process_identifier_write _ _ _ _ _ _ _ _ E H2) as W2.
  destruct W1 as (listed & blob & image & st1 & L1 & C1 & D1 & _ & K1 & B1).
  destruct W2 as (listed' & blob' & image' & st2 & L2 & C2 & D2 & _ & _ & B2).
  assert (listed' = listed) as -> by congruence.
  assert (blob' = blob) as -> by congruence.
  assert (image' = image) as ->.
  { rewrite (download_image_fst w blob st2 st1) in D2. congruence. }
  destruct (thumbnail_destination_name output_dir identifier d1) as [Nc1 Np1].
  destruct (thumbnail_destination_name output_dir identifier d2) as [Nc2 Np2].
  destruct B1 as [[_ T1]|[P1 _]].
  2: { exfalso. apply thumbnail_names_differ. rewrite <- (Np1 P1). exact N1. }
  destruct B2 as [[P2 _]|[_ T2]].
  1: { exfalso. apply thumbnail_names_differ. rewrite <- (Nc2 P2).
       symmetry. exact N2. }
  exact (thumbnail_256_le_512_written image profile cover T2 T1 K1).
Qed.

Lemma profile_is_no_larger_than_cover_witness :
  Image.width (mk_image Image.RGB 256 171)
  <= Image.width (mk_image Image.RGB 512 342)
  /\ Image.height (mk_image Image.RGB 256 171)
     <= Image.height (mk_image Image.RGB 512 342).
Proof.
  apply (profile_is_no_larger_than_cover sample_world (py "afaculty")
           (py "jane") (Path.of_str (py "portraits")) initial_state
           (trace (snd (process_identifier sample_world (py "afaculty")
                          (py "jane") (Path.of_str (py "portraits"))
                          initial_state)))
           (Path.of_str (py "portraits/jane/cover.jpg"))
           (mk_image Image.RGB 512 342)
           (Path.of_str (py "portraits/jane/profile.jpg"))
           (mk_image Image.RGB 256 171)).
  - reflexivity.
  - vm_compute. apply list_elem_of_here.
  - vm_compute. apply list_elem_of_further, list_elem_of_here.
  - reflexivity.
  - reflexivity.
Defined.

Lemma normalised_inv src image :
  (if negb (Image.mode_eqb (Image.mode src) Image.RGB
            || Image.mode_eqb (Image.mode src) Image.RGBA)
   then Image.convert_RGB src else Ok src) = Ok image ->
  Image.mode image
  = (if Image.mode_eqb (Image.mode src) Image.RGBA
     then Image.RGBA else Image.RGB)
  /\ Image.width image = Image.width src
  /\ Image.height image = Image.height src.
Proof.
  unfold Image.convert_RGB, Image.load.
  destruct (Image.mode src) eqn:E; simpl; destruct (Image.pending src);
    try discriminate; intros [= <-]; simpl; auto.
Qed.

(** Every file a call writes holds the downloaded source scaled into the
    box of its name: [cover.jpg] into 512 by 512 and [profile.jpg] into 256
    by 256, in mode RGB; and a file is written only for a source that is not
    in mode RGBA. *)
Theorem written_thumbnails_are_scaled_sources :
  forall w bucket_name identifier output_dir listed blob data src,
    list_blobs w bucket_name (rstrip_slash identifier ++ [SLASH]) = Ok listed ->
    choose_primary_blob
      (List.filter (fun blob => candidate (Blob.name blob)) listed)
    = Some blob ->
    download_as_bytes w blob = Ok data ->
    image_open w data = Ok src ->
    0 < Image.width src ->
    forall st evs destination thumbnail,
      trace (snd (process_identifier w bucket_name identifier output_dir st))
      = trace st ++ evs ->
      (destination, thumbnail) ∈ writes_of evs ->
      Image.mode src <> Image.RGBA
      /\ Image.mode thumbnail = Image.RGB
      /\ ((destination
           = Path.truediv (Path.truediv output_dir identifier)
               (py "cover.jpg")
           /\ scaled_into (512, 512) src thumbnail)
          \/ (destination
              = Path.truediv (Path.truediv output_dir identifier)
                  (py "profile.jpg")
              /\ scaled_into (256, 256) src thumbnail)).
Proof.
  intros w bucket_name identifier output_dir listed blob data src
    Hlisted Hchosen Hdownload Hopen Hwidth st evs destination thumbnail E H.
  destruct (process_identifier_write _ _ _ _ _ _ _ _ E H)
    as (listed' & blob' & image & st1 & L & C & D & Hp & K & B).
  assert (listed' = listed) as -> by congruence.
  assert (blob' = blob) as -> by congruence.
  rewrite (download_image_opened _ _ _ _ _ Hdownload Hopen) in D.
  simpl in D. apply normalised_inv in D as (Hm & Hw & Hh).
  assert (forall box,
            Image.thumbnail box image = Ok thumbnail ->
            0 < fst box -> 0 < snd box ->
            Image.mode src <> Image.RGBA
            /\ Image.mode thumbnail = Image.RGB
            /\ scaled_into box src thumbnail) as Hbox.
  { intros box T Hx Hy.
    pose proof (thumbnail_checked_height _ _ _ T K) as Hheight.
    destruct (thumbnail_keeps_mode _ _ _ T) as [Mt _].
    assert (Image.mode src <> Image.RGBA) as Hsrc.
    { intros Hrgba. rewrite Hrgba in Hm. simpl in Hm.
      rewrite (check_save_jpeg_rgba thumbnail) in K by congruence.
      discriminate K. }
    split; [exact Hsrc|]. split.
    - rewrite Mt, Hm.
      destruct (Image.mode_eqb (Image.mode src) Image.RGBA) eqn:Eq;
        [|reflexivity].
      apply mode_eqb_RGBA in Eq. contradiction.
    - destruct (thumbnail_scaled box image Hx Hy ltac:(rewrite Hw; exact Hwidth)
                  Hheight) as (th & T' & S & _).
      assert (th = thumbnail) as -> by congruence.
      apply (scaled_into_same_size box src image); auto. }
  destruct B as [[-> T]|[-> T]].
  - destruct (Hbox (512, 512) T ltac:(reflexivity) ltac:(reflexivity))
      as (A1 & A2 & A3). auto.
  - destruct (Hbox (256, 256) T ltac:(reflexivity) ltac:(reflexivity))
      as (A1 & A2 & A3). auto.
Qed.

Lemma written_thumbnails_are_scaled_sources_witness :
  Image.mode (mk_image Image.RGB 1000 667) <> Image.RGBA
  /\ Image.mode (mk_image Image.RGB 256 171) = Image.RGB
  /\ ((Path.of_str (py "portraits/jane/profile.jpg")
       = Path.truediv
           (Path.truediv (Path.of_str (py "portraits")) (py "jane"))
           (py "cover.jpg")
       /\ scaled_into (512, 512) (mk_image Image.RGB 1000 667)
            (mk_image Image.RGB 256 171))
      \/ (Path.of_str (py "portraits/jane/profile.jpg")
          = Path.truediv
              (Path.truediv (Path.of_str (py "portraits")) (py "jane"))
              (py "profile.jpg")
          /\ scaled_into (256, 256) (mk_image Image.RGB 1000 667)
               (mk_image Image.RGB 256 171))).
Proof.
  apply (written_thumbnails_are_scaled_sources sample_world (py "afaculty")
           (py "jane") (Path.of_str (py "portraits"))
           (sample_listing (py "jane/"))
           (mk_blob "jane/portrait.JPG" (Some 50))
           (py "jane/portrait.JPG") (mk_image Image.RGB 1000 667)
           eq_refl eq_refl eq_refl eq_refl eq_refl initial_state
           (trace (snd (process_identifier sample_world (py "afaculty")
                          (py "jane") (Path.of_str (py "portraits"))
                          initial_state)))).
  - reflexivity.
  - vm_compute. apply list_elem_of_further, list_elem_of_here.
Defined.

(** ** The selector and the order of the listing *)

(** The order in which blobs are listed decides only between blobs of equal
    size: the size of the chosen blob is the same for every order. *)
Theorem chosen_size_is_independent_of_order :
  forall blobs1 blobs2 b1,
    blobs1 ≡ₚ blobs2 ->
    choose_primary_blob blobs1 = Some b1 ->
    exists b2,
      choose_primary_blob blobs2 = Some b2 /\ size_key b2 = size_key b1.
Proof.
  intros blobs1 blobs2 b1 Hp H1.
  assert (blobs1 <> []) as Hne1 by (destruct blobs1; [discriminate|congruence]).
  assert (blobs2 <> []) as Hne2.
  { intros ->. apply Permutation_nil_r in Hp. contradiction. }
  destruct (choose_primary_blob_split blobs1 Hne1)
    as (c1 & pre1 & post1 & Hc1 & E1 & Hpre1 & Hpost1).
  destruct (choose_primary_blob_split blobs2 Hne2)
    as (c2 & pre2 & post2 & Hc2 & E2 & Hpre2 & Hpost2).
  rewrite H1 in Hc1. injection Hc1 as <-.
  exists c2. split; [exact Hc2|].
  assert (forall blobs b pre post,
            blobs = pre ++ b :: post ->
            Forall (fun x => size_key x < size_key b) pre ->
            Forall (fun x => size_key x <= size_key b) post ->
            forall x, x ∈ blobs -> size_key x <= size_key b) as Hmax.
  { intros blobs b pre post -> Hpre Hpost x Hx.
    rewrite Forall_forall in Hpre, Hpost.
    apply elem_of_app in Hx as [Hx|Hx]; [apply N.lt_le_incl, Hpre, Hx|].
    apply elem_of_cons in Hx as [->|Hx]; [lia|apply Hpost, Hx]. }
  assert (b1 ∈ blobs1) as In1
    by (rewrite E1; apply elem_of_app; right; apply list_elem_of_here).
  assert (c2 ∈ blobs2) as In2
    by (rewrite E2; apply elem_of_app; right; apply list_elem_of_here).
  pose proof (Hmax _ _ _ _ E1 Hpre1 Hpost1 c2 ltac:(rewrite Hp; exact In2)).
  pose proof (Hmax _ _ _ _ E2 Hpre2 Hpost2 b1 ltac:(rewrite <- Hp; exact In1)).
  lia.
Qed.

Lemma chosen_size_is_independent_of_order_witness :
  exists b2,
    choose_primary_blob
      [mk_blob "a/z.png" (Some 9); mk_blob "a/w.png" (Some 2);
       mk_blob "a/x.png" (Some 9)]
    = Some b2
    /\ size_key b2 = size_key (mk_blob "a/x.png" (Some 9)).
Proof.
  apply (chosen_size_is_independent_of_order
           [mk_blob "a/w.png" (Some 2); mk_blob "a/x.png" (Some 9);
            mk_blob "a/z.png" (Some 9)]).
  - symmetry.
    apply (Permutation_cons_append
             [mk_blob "a/w.png" (Some 2); mk_blob "a/x.png" (Some 9)]
             (mk_blob "a/z.png" (Some 9))).
  - reflexivity.
Defined.

(** ** The identifier source against an independent reading *)

Lemma str_lt_lex a b : str_lt a b <-> lex_lt a b.
Proof.
  unfold str_lt, str_le. split.
  - revert b. induction a as [|x a IH]; intros [|y b] [Hle Hne];
      simpl in Hle; try congruence; try discriminate; [constructor|].
    destruct (N.ltb_spec x y); [constructor; assumption|].
    destruct (N.eqb_spec x y); [|discriminate]. subst y.
    apply lex_lt_tail, IH. split; [exact Hle|congruence].
  - induction 1 as [c s|x y a b Hxy|x a b H [IH1 IH2]]; simpl.
    + split; [reflexivity|discriminate].
    + destruct (N.ltb_spec x y); [|lia]. split; [reflexivity|].
      intros [= -> _]. lia.
    + rewrite N.ltb_irrefl, N.eqb_refl. split; [exact IH1|congruence].
Qed.

Lemma sorted_lex (l : list str) :
  StronglySorted str_lt l <-> StronglySorted lex_lt l.
Proof.
  split; induction 1 as [|x l Hs IH Hx]; constructor; auto;
    (eapply Forall_impl; [exact Hx|]); intros y Hy; apply str_lt_lex, Hy.
Qed.

Lemma lstrip_by_spaces p pre t :
  Forall (fun c => p c = true) pre -> lstrip_by p (pre ++ t) = lstrip_by p t.
Proof. induction 1 as [|c r Hc _ IH]; simpl; [reflexivity|]. rewrite Hc. exact IH. Qed.

Lemma strip_trimmed e : trimmed e (strip e).
Proof.
  destruct (strip_ends e) as [H1 H2]. revert H1 H2.
  unfold strip, rstrip_by.
  destruct (lstrip_by_split isspace e) as (ws1 & E1 & F1).
  set (a := lstrip_by isspace e) in *.
  destruct (lstrip_by_split isspace (rev a)) as (ws2 & E2 & F2).
  set (b := lstrip_by isspace (rev a)) in *.
  intros H1 H2. exists ws1, (rev ws2).
  split; [|split; [exact F1|split; [|split; [exact H1|exact H2]]]].
  - rewrite E1 at 1. f_equal.
    rewrite <- (rev_involutive a), E2, rev_app_distr. reflexivity.
  - apply List.Forall_rev, F2.
Qed.

Lemma trimmed_strip e x : trimmed e x -> strip e = x.
Proof.
  intros (pre & post & -> & Fpre & Fpost & Hhead & Hlast).
  unfold strip, rstrip_by. rewrite (lstrip_by_spaces _ _ _ Fpre).
  assert (Forall (fun c => isspace c = true) (rev post)) as Frev.
  { apply List.Forall_rev, Fpost. }
  destruct x as [|c r].
  - simpl. rewrite <- (app_nil_r post) at 1.
    rewrite (lstrip_by_spaces _ _ _ Fpost). simpl.
    reflexivity.
  - rewrite (lstrip_by_fixed isspace ((c :: r) ++ post) Hhead).
    rewrite rev_app_distr, (lstrip_by_spaces _ _ _ Frev).
    rewrite (lstrip_by_fixed isspace (rev (c :: r)) Hlast).
    apply rev_involutive.
Qed.

Lemma resolves_sorted_union entries l :
  resolves entries l <-> sorted_union entries l.
Proof.
  unfold resolves, sorted_union. rewrite sorted_lex.
  split; intros [S M]; (split; [exact S|]); intros x; rewrite M;
    split; intros (Hne & e & He & Hs); (split; [exact Hne|]); exists e;
    (split; [exact He|]);
    first [subst x; apply strip_trimmed | apply trimmed_strip, Hs].
Qed.

(** C3: whatever the [--id] values and the lines of the [--from-file] file,
    the identifier list that is resolved is the sorted, deduplicated union
    of both sources: strictly increasing in the lexicographic order, and
    holding exactly the entries of both sources with their leading and
    trailing white space removed, those left empty dropped (when nothing is
    left the function raises instead of returning the empty list).  There is
    only one such list, and supplying the same entries in another order, or
    moving them between the two sources, gives the same result.  For
    instance the values "b", "  a ", tab "B" line feed, "", " a", "ab"
    resolve to "B", "a", "ab", "b". *)
Theorem build_identifier_list_sorted_union :
  (forall w args lines st,
     file_lines w args = Ok lines ->
     exists l,
       sorted_union (lines ++ identifiers args) l
       /\ (forall l', sorted_union (lines ++ identifiers args) l' -> l' = l)
       /\ build_identifier_list w args st
          = (match l with
             | [] => Raise (SystemExit NO_IDENTIFIERS)
             | _ :: _ => Ok l
             end, st)
       /\ (forall w' args' lines',
             file_lines w' args' = Ok lines' ->
             lines' ++ identifiers args' ≡ₚ lines ++ identifiers args ->
             build_identifier_list w' args' st
             = build_identifier_list w args st))
  /\ (forall w bucket_name output_dir verbose st,
        build_identifier_list w
          {| bucket := bucket_name;
             identifiers := [py "b"; py "  a "; [9] ++ py "B" ++ [10]; [];
                             py " a"; py "ab"];
             from_file := None; output := output_dir; verbose := verbose |}
          st
        = (Ok [py "B"; py "a"; py "ab"; py "b"], st)).
Proof.
  split.
  - intros w args lines st Hf.
    pose proof (sorted_gathered_resolves lines (identifiers args)) as Hres.
    exists (sorted (py_set (gathered lines (identifiers args)))).
    split; [apply resolves_sorted_union, Hres|]. split; [|split].
    + intros l' Hl'. apply resolves_sorted_union in Hl'.
      exact (resolves_unique _ _ _ Hl' Hres).
    + rewrite (build_identifier_list_run w args lines st Hf).
      destruct (sorted _); reflexivity.
    + intros w' args' lines' Hf' Hp.
      rewrite (build_identifier_list_run w args lines st Hf).
      rewrite (build_identifier_list_run w' args' lines' st Hf').
      pose proof (sorted_gathered_resolves lines' (identifiers args')) as Hres'.
      apply (resolves_Permutation _ _ _ (symmetry Hp)) in Hres'.
      rewrite (resolves_unique _ _ _ Hres' Hres). reflexivity.
  - intros w bucket_name output_dir verbose st.
    match goal with
    | |- build_identifier_list _ ?a _ = _ =>
        rewrite (build_identifier_list_run w a [] st eq_refl)
    end.
    vm_compute. reflexivity.
Qed.

Lemma build_identifier_list_sorted_union_witness :
  exists l,
    sorted_union
      ([py " kim"; py "jane  "; []; py "jane"]
       ++ identifiers
            (sample_args [" lee"; "jane"]%string (Some "ids.txt"%string))) l
    /\ (forall l',
          sorted_union
            ([py " kim"; py "jane  "; []; py "jane"]
             ++ identifiers
                  (sample_args [" lee"; "jane"]%string
                     (Some "ids.txt"%string))) l' -> l' = l)
    /\ build_identifier_list sample_world
         (sample_args [" lee"; "jane"]%string (Some "ids.txt"%string))
         initial_state
       = (match l with
          | [] => Raise (SystemExit NO_IDENTIFIERS)
          | _ :: _ => Ok l
          end, initial_state)
    /\ (forall w' args' lines',
          file_lines w' args' = Ok lines' ->
          lines' ++ identifiers args'
            ≡ₚ [py " kim"; py "jane  "; []; py "jane"]
               ++ identifiers
                    (sample_args [" lee"; "jane"]%string
                       (Some "ids.txt"%string)) ->
          build_identifier_list w' args' initial_state
          = build_identifier_list sample_world
              (sample_args [" lee"; "jane"]%string (Some "ids.txt"%string))
              initial_state).
Proof.
  apply (proj1 build_identifier_list_sorted_union sample_world
           (sample_args [" lee"; "jane"]%string (Some "ids.txt"%string))
           [py " kim"; py "jane  "; []; py "jane"] initial_state).
  reflexivity.
Defined.

(** ** The blob filter against an independent reading *)

Lemma endswith_slash_iff name :
  endswith_slash name = true <-> exists s, name = s ++ [SLASH].
Proof.
  split; [apply endswith_slash_snoc|]. intros (s & ->).
  unfold endswith_slash. rewrite rev_app_distr. reflexivity.
Qed.

Lemma image_extensions_listed x :
  x ∈ IMAGE_EXTENSIONS
  <-> x ∈ [py ".jpg"; py ".jpeg"; py ".png"; py ".webp"; py ".gif"].
Proof. unfold IMAGE_EXTENSIONS. apply elem_of_list_to_set. Qed.

Lemma rfind_none c e : c ∉ e -> rfind c e = None.
Proof.
  induction e as [|x e IH]; intros H; [reflexivity|]. simpl.
  rewrite IH by (intros Hin; apply H, list_elem_of_further, Hin).
  destruct (N.eqb_spec x c) as [->|_]; [|reflexivity].
  exfalso. apply H, list_elem_of_here.
Qed.

Lemma dirlike_endswith_slash (d : str) :
  d = [] \/ (exists d0, d = d0 ++ [SLASH]) ->
  d = [] \/ endswith_slash d = true.
Proof. intros [H|H]; [left; exact H|right; apply endswith_slash_iff, H]. Qed.

(** The suffix of a path whose final component is a stem followed by a
    period and a non-empty extension without a period. *)
Lemma suffix_of_file_name d s e :
  d = [] \/ endswith_slash d = true ->
  s <> [] -> SLASH ∉ s -> e <> [] -> DOT ∉ e -> SLASH ∉ e ->
  Path.suffix (Path.of_str (d ++ s ++ DOT :: e)) = DOT :: e
  /\ endswith_slash (d ++ s ++ DOT :: e) = false.
Proof.
  intros Hd Hs Hslash He Hdot Hse.
  assert (SLASH ∉ s ++ DOT :: e) as Hst.
  { intros H. apply elem_of_app in H as [H|H]; [auto|].
    apply elem_of_cons in H as [H|H]; [discriminate H|auto]. }
  assert (Path.name (Path.of_str (d ++ s ++ DOT :: e)) = s ++ DOT :: e)
    as Hname.
  { apply name_of_file_path; auto.
    - destruct s; [congruence|discriminate].
    - intros H. apply (f_equal (@length N)) in H. rewrite length_app in H.
      simpl in H. destruct s; [congruence|simpl in H; lia]. }
  split.
  - unfold Path.suffix. rewrite Hname.
    assert (rfind DOT (DOT :: e) = Some 0%nat) as Hr.
    { simpl. rewrite (rfind_none DOT e Hdot). reflexivity. }
    rewrite (rfind_app DOT s (DOT :: e) 0 Hr).
    rewrite Nat.add_0_r, length_app.
    assert ((0 <? length s)%nat = true) as ->.
    { apply Nat.ltb_lt. destruct s; [congruence|simpl; lia]. }
    assert ((length s <? length s + length (DOT :: e) - 1)%nat = true) as ->.
    { apply Nat.ltb_lt. destruct e; [congruence|simpl; lia]. }
    simpl. apply drop_app_length.
  - unfold endswith_slash. rewrite !rev_app_distr. cbn [rev].
    destruct (rev e) as [|c r] eqn:Er.
    { apply (f_equal (@rev N)) in Er. rewrite rev_involutive in Er.
      simpl in Er. congruence. }
    simpl. apply N.eqb_neq. intros ->. apply Hse.
    apply list_elem_of_In, in_rev. rewrite Er. left. reflexivity.
Qed.

(** A final component without a period has no suffix. *)
Lemma suffix_of_plain_name d t :
  d = [] \/ endswith_slash d = true ->
  t <> [] -> SLASH ∉ t -> DOT ∉ t ->
  Path.suffix (Path.of_str (d ++ t)) = [].
Proof.
  intros Hd Ht Hs Hdot. unfold Path.suffix.
  rewrite (name_of_file_path d t Hd Ht Hs).
  - rewrite (rfind_none DOT t Hdot). reflexivity.
  - intros ->. apply Hdot, list_elem_of_here.
Qed.

(** C4: a blob name is left out of the candidates exactly when it ends in
    [/] (it is some string followed by a slash) or the lowercased suffix of
    its path is not one of [.jpg], [.jpeg], [.png], [.webp], [.gif].  The
    suffix is the extension: for a name made of a directory part (empty or
    ending in a slash), a non-empty stem without a slash, a period and a
    non-empty extension holding neither period nor slash, the suffix is the
    period with the extension, so such a name is left out exactly when the
    lowercased extension is not one of the five; a final component without
    any period has no suffix and is left out.  Letter case plays no part:
    two names equal up to case are both kept or both left out. *)
Theorem candidate_excluded_iff :
  (forall x : str,
     x ∈ IMAGE_EXTENSIONS
     <-> x ∈ [py ".jpg"; py ".jpeg"; py ".png"; py ".webp"; py ".gif"])
  /\ (forall name : str,
        candidate name = false
        <-> (exists s, name = s ++ [SLASH])
            \/ lower (Path.suffix (Path.of_str name))
               ∉ [py ".jpg"; py ".jpeg"; py ".png"; py ".webp"; py ".gif"])
  /\ (forall dir stem e : str,
        dir = [] \/ (exists d, dir = d ++ [SLASH]) ->
        stem <> [] -> SLASH ∉ stem ->
        e <> [] -> DOT ∉ e -> SLASH ∉ e ->
        Path.suffix (Path.of_str (dir ++ stem ++ DOT :: e)) = DOT :: e
        /\ (candidate (dir ++ stem ++ DOT :: e) = false
            <-> lower (DOT :: e)
                ∉ [py ".jpg"; py ".jpeg"; py ".png"; py ".webp"; py ".gif"]))
  /\ (forall dir t : str,
        dir = [] \/ (exists d, dir = d ++ [SLASH]) ->
        t <> [] -> SLASH ∉ t -> DOT ∉ t ->
        Path.suffix (Path.of_str (dir ++ t)) = []
        /\ candidate (dir ++ t) = false)
  /\ (forall n1 n2 : str, lower n1 = lower n2 -> candidate n1 = candidate n2).
Proof.
  split; [exact image_extensions_listed|]. split; [|split; [|split]].
  - intros name. unfold candidate, is_image_blob.
    rewrite <- image_extensions_listed.
    destruct (endswith_slash name) eqn:E; simpl.
    + split; [|reflexivity]. intros _. left. apply endswith_slash_iff, E.
    + rewrite bool_decide_eq_false. split; [tauto|].
      intros [H|H]; [|exact H]. apply endswith_slash_iff in H. congruence.
  - intros dir stem e Hd Hs Hslash He Hdot Hse.
    apply dirlike_endswith_slash in Hd.
    destruct (suffix_of_file_name dir stem e Hd Hs Hslash He Hdot Hse)
      as [Hsuf Hend].
    split; [exact Hsuf|].
    unfold candidate, is_image_blob. rewrite Hend, Hsuf. simpl negb.
    rewrite andb_true_l, bool_decide_eq_false, image_extensions_listed.
    reflexivity.
  - intros dir t Hd Ht Hs Hdot. apply dirlike_endswith_slash in Hd.
    pose proof (suffix_of_plain_name dir t Hd Ht Hs Hdot) as Hsuf.
    split; [exact Hsuf|].
    unfold candidate, is_image_blob. rewrite Hsuf.
    rewrite bool_decide_eq_false_2; [apply andb_false_r|].
    rewrite image_extensions_listed. intros H.
    repeat (apply elem_of_cons in H as [H|H]; [discriminate H|]).
    apply elem_of_nil in H. exact H.
  - intros n1 n2 H.
    rewrite <- (lower_candidate n1), <- (lower_candidate n2), H. reflexivity.
Qed.

Lemma candidate_excluded_iff_witness :
  (Path.suffix (Path.of_str (py "jane/2024/" ++ py "Old.v2" ++ DOT :: py "JPG"))
   = DOT :: py "JPG"
   /\ (candidate (py "jane/2024/" ++ py "Old.v2" ++ DOT :: py "JPG") = false
       <-> lower (DOT :: py "JPG")
           ∉ [py ".jpg"; py ".jpeg"; py ".png"; py ".webp"; py ".gif"]))
  /\ (Path.suffix (Path.of_str (py "jane/" ++ py "README")) = []
      /\ candidate (py "jane/" ++ py "README") = false)
  /\ candidate (py "jane/Portrait.JPG") = candidate (py "jane/portrait.jpg").
Proof.
  assert (forall (c : N) (l : str),
            forallb (fun x => negb (x =? c)) l = true -> c ∉ l) as Hnotin.
  { intros c l H Hin. rewrite forallb_forall in H.
    apply list_elem_of_In, H in Hin. rewrite N.eqb_refl in Hin.
    discriminate Hin. }
  split; [|split].
  - apply (proj1 (proj2 (proj2 candidate_excluded_iff))
             (py "jane/2024/") (py "Old.v2") (py "JPG")).
    + right. exists (py "jane/2024"). reflexivity.
    + discriminate.
    + apply Hnotin. reflexivity.
    + discriminate.
    + apply Hnotin. reflexivity.
    + apply Hnotin. reflexivity.
  - apply (proj1 (proj2 (proj2 (proj2 candidate_excluded_iff)))
             (py "jane/") (py "README")).
    + right. exists (py "jane"). reflexivity.
    + discriminate.
    + apply Hnotin. reflexivity.
    + apply Hnotin. reflexivity.
  - apply (proj2 (proj2 (proj2 (proj2 candidate_excluded_iff)))).
    reflexivity.
Defined.
